(** * Verification of the Q&A extraction pipeline
      (src/data/format_for_finetuning.py)

    The script walks the sheets of a workbook, flattens every row into one
    text unit, segments the units into question/answer pairs and writes the
    pairs in three formats.  This file embeds the pure part of the script
    (everything between the loaded workbook and the records handed to the
    JSON writer) and proves the properties the specification states.

    Python strings are sequences of Unicode code points: a character is a
    code point in [N], a string a list of them. *)

From Stdlib Require Import String Ascii.
From Stdlib Require Import List Arith NArith Lia Bool.
From Stdlib Require Import Sorting.Permutation Sorting.Sorted.
From Equations Require Import Equations.
Import ListNotations.

(** ** Python strings *)

Definition char := N.
Definition str := list char.

(** An ASCII literal of the source, as a Python string. *)
Definition py (s : string) : str := map N_of_ascii (list_ascii_of_string s).
Arguments py s%_string.

Definition TAB : char := 9%N.
Definition NL : char := 10%N.
Definition SPACE : char := 32%N.
Definition QMARK : char := 63%N.
Definition EQUALS : char := 61%N.

(** [str.isspace] on one code point, which is also what [\s] matches in a
    [re] pattern over [str]: the characters CPython's
    [Py_UNICODE_ISSPACE] accepts. *)
Definition isspace (c : char) : bool :=
  (((9 <=? c) && (c <=? 13)) || ((28 <=? c) && (c <=? 32))
   || (c =? 133) || (c =? 160) || (c =? 5760)
   || ((8192 <=? c) && (c <=? 8202))
   || (c =? 8232) || (c =? 8233) || (c =? 8239) || (c =? 8287)
   || (c =? 12288))%N.

Fixpoint take_while (p : char -> bool) (s : str) : str :=
  match s with
  | [] => []
  | c :: s' => if p c then c :: take_while p s' else []
  end.

Fixpoint drop_while (p : char -> bool) (s : str) : str :=
  match s with
  | [] => []
  | c :: s' => if p c then drop_while p s' else s
  end.

(** [s.lstrip()], [s.rstrip()] and [s.strip()] without argument. *)
Definition lstrip (s : str) : str := drop_while isspace s.
Definition rstrip (s : str) : str := rev (drop_while isspace (rev s)).
Definition strip (s : str) : str := rstrip (lstrip s).

(** [s.replace(old, new)] for one-character [old] and [new]. *)
Definition replace (s : str) (old new : char) : str :=
  map (fun c => if (c =? old)%N then new else c) s.

Fixpoint str_eqb (s t : str) : bool :=
  match s, t with
  | [], [] => true
  | c :: s', d :: t' => (c =? d)%N && str_eqb s' t'
  | _, _ => false
  end.

(** [not s] for a string. *)
Definition is_empty (s : str) : bool :=
  match s with [] => true | _ :: _ => false end.

Fixpoint startswith (s prefix : str) {struct prefix} : bool :=
  match prefix, s with
  | [], _ => true
  | p :: prefix', c :: s' => (c =? p)%N && startswith s' prefix'
  | _ :: _, [] => false
  end.

Definition endswith (s suffix : str) : bool :=
  startswith (rev s) (rev suffix).

(** [c in s] for a one-character [c]. *)
Definition contains (s : str) (c : char) : bool :=
  existsb (fun d => (d =? c)%N) s.

(** [sep.join(parts)]. *)
Fixpoint join (sep : str) (parts : list str) : str :=
  match parts with
  | [] => []
  | [p] => p
  | p :: rest => p ++ sep ++ join sep rest
  end.

(** ** Regular-expression substitution

    Both patterns of [clean_text] have the shape [C{lo,}] for a character
    class [C] and [lo >= 1] ([C+] is [C{1,}]).  [re.sub] scans the string
    from the left; at each position the greedy quantifier takes the whole
    run of class characters that starts there, the match succeeds when the
    run has at least [lo] characters, the match is replaced by [repl] and
    the scan resumes after it; where there is no match the character is
    copied and the scan moves one position on. *)

Equations? re_sub_run (cls : char -> bool) (lo : nat) (repl : str) (s : str)
  : str by wf (length s) lt :=
  re_sub_run cls lo repl [] := [];
  re_sub_run cls lo repl (c :: s') :=
    if cls c && (lo <=? S (length (take_while cls s')))
    then repl ++ re_sub_run cls lo repl (drop_while cls s')
    else c :: re_sub_run cls lo repl s'.
Proof.
  clear re_sub_run. induction s' as [|d s' IH]; simpl; [lia|].
  destruct (cls d); simpl in *; lia.
Qed.

(** The class [[^\S\n]]: whitespace other than the newline. *)
Definition space_not_newline (c : char) : bool :=
  isspace c && negb (c =? NL)%N.

Definition is_newline (c : char) : bool := (c =? NL)%N.

(** [re.sub(r"[^\S\n]+", " ", text)] and [re.sub(r"\n{3,}", "\n\n", text)]. *)
Definition sub_spaces (text : str) : str :=
  re_sub_run space_not_newline 1 [SPACE] text.

Definition sub_newlines (text : str) : str :=
  re_sub_run is_newline 3 [NL; NL] text.

(** ** [clean_text] *)

Definition clean_text (text : str) : str :=
  if is_empty text then []
  else
    let text := strip text in
    let text := replace text TAB SPACE in
    let text := sub_spaces text in
    let text := sub_newlines text in
    strip text.

(** ** [str.lower]

    On a string of ASCII characters [str.lower] maps the letters A..Z to
    a..z and leaves every other character alone. *)

Definition is_ascii (c : char) : bool := (c <? 128)%N.

Definition ascii_lower (c : char) : char :=
  if ((65 <=? c) && (c <=? 90))%N then (c + 32)%N else c.

(** ** Worksheets

    The script looks at a cell value in three ways only: [cell.value is
    None], the truth value of [cell.value], and [str(cell.value)].  A value
    that is neither [None] nor a string (a number, a boolean, a date) is
    kept as its truth value and its [str] rendering: the integer 0 is
    [VOther false (py "0")]. *)

Inductive cell_value : Type :=
| VNone
| VStr (s : str)
| VOther (truthy : bool) (repr : str).

Definition value_is_none (v : cell_value) : bool :=
  match v with VNone => true | _ => false end.

Definition value_truthy (v : cell_value) : bool :=
  match v with
  | VNone => false
  | VStr s => negb (is_empty s)
  | VOther b _ => b
  end.

Definition value_str (v : cell_value) : str :=
  match v with
  | VNone => py "None"
  | VStr s => s
  | VOther _ r => r
  end.

(** What [ws.iter_rows(min_row=1, max_row=ws.max_row)] yields: the rows in
    ascending order, each the cells of the row from left to right.  The row
    at position [i] of the list has row number [i + 1]. *)
Definition worksheet := list (list cell_value).

Definition iter_rows (ws : worksheet) : list (N * list cell_value) :=
  combine (map N.of_nat (seq 1 (length ws))) ws.

(** [wb.sheetnames] with [wb[sheet_name]]. *)
Definition workbook := list (str * worksheet).

(** [rows_data] is a dict from row number to text.  A Python dict keeps its
    keys in insertion order and an assignment to a key already present
    replaces the value in place. *)
Definition dict := list (N * str).

Fixpoint dict_set (d : dict) (k : N) (v : str) : dict :=
  match d with
  | [] => [(k, v)]
  | (k', v') :: d' =>
      if (k' =? k)%N then (k, v) :: d' else (k', v') :: dict_set d' k v
  end.

(** [sorted(rows_data.items())]: the keys of a dict are distinct, so the
    comparison of two items is decided by their row numbers. *)
Fixpoint insert_item (x : N * str) (l : list (N * str)) : list (N * str) :=
  match l with
  | [] => [x]
  | y :: l' => if (fst x <=? fst y)%N then x :: l else y :: insert_item x l'
  end.

Definition sorted (d : dict) : list (N * str) := fold_right insert_item [] d.

(** ** Records *)

Record QAPair : Type := mkQA {
  question : str;
  answer : str;
  product : str;
  sheet : str
}.

Record instruct_record : Type := mkInstruct {
  instruction : str;
  input : str;
  output : str;
  instruct_product : str
}.

Inductive role : Type := system | user | assistant.

Record message : Type := mkMessage { msg_role : role; content : str }.

Record chat_record : Type := mkChat { messages : list message }.

Record faq_question : Type := mkFaqQuestion {
  faq_q : str;      (* q["question"] *)
  faq_a : str       (* q["answer"] *)
}.

Record faq_category : Type := mkFaqCategory {
  category : option str;             (* cat.get("category", "General") *)
  questions : list faq_question      (* cat.get("questions", []) *)
}.

(** ** Constants *)

Definition SKIP_SHEETS : list str :=
  [py "Main"; py "Rate Sheet July 1 2024"; py "Sheet1"].

Definition SYSTEM_PROMPT : str :=
  py "You are a helpful customer support assistant for NUST Bank. "
  ++ py "Answer the customer's question accurately and concisely using "
  ++ py "the bank's product knowledge.".

Definition q_starts : list str :=
  [py "what"; py "how"; py "is "; py "is" ++ [NL]; py "can "; py "can" ++ [NL];
   py "does"; py "do ";
   py "are "; py "which"; py "who"; py "where"; py "when"; py "why";
   py "i would like to"; py "i want to"; py "please tell";
   py "1."; py "1 ."; py "1-"].

Definition MAIN_MARKER : str := py "main".
Definition CELL_SEPARATOR : str := py " | ".
Definition FAQ_SHEET : str := py "funds_transfer_app_features_faq.json".
Definition EN_DASH : char := 8211%N.

(** [x in S] for a set of strings. *)
Definition in_set (x : str) (S : list str) : bool := existsb (str_eqb x) S.

(** The truth value of the optional string [current_question]. *)
Definition pending (q : option str) : bool :=
  match q with
  | Some (_ :: _) => true
  | _ => false
  end.

Definition is_nil {A : Type} (l : list A) : bool :=
  match l with [] => true | _ :: _ => false end.

(** ** The normalization as the specification words it

    "Collapse every run of [C] of at least [lo] characters": the string is
    cut into its maximal runs of class characters and the characters in
    between, and every run that is long enough is exchanged for the
    replacement. *)

Inductive piece : Type :=
| Run (r : str)
| Other (c : char).

Fixpoint split_runs (cls : char -> bool) (s : str) : list piece :=
  match s with
  | [] => []
  | c :: s' =>
      if cls c then
        match split_runs cls s' with
        | Run r :: ps => Run (c :: r) :: ps
        | ps => Run [c] :: ps
        end
      else Other c :: split_runs cls s'
  end.

Definition collapse_piece (lo : nat) (repl : str) (p : piece) : str :=
  match p with
  | Run r => if lo <=? length r then repl else r
  | Other c => [c]
  end.

Definition collapse_runs (cls : char -> bool) (lo : nat) (repl : str) (s : str)
  : str :=
  flat_map (collapse_piece lo repl) (split_runs cls s).

Definition tabs_to_spaces (s : str) : str :=
  map (fun c => if (c =? TAB)%N then SPACE else c) s.

(** Trim; tabs to spaces; runs of non-newline whitespace to one space; runs
    of three or more newlines to two; trim again. *)
Definition spec_normalize (s : str) : str :=
  match s with
  | [] => []
  | _ :: _ =>
      strip
        (collapse_runs is_newline 3 [NL; NL]
           (collapse_runs space_not_newline 1 [SPACE]
              (tabs_to_spaces (strip s))))
  end.

(** ** Closed inputs

    The strings of the closed examples are ASCII, where [lower] does not
    consult its Unicode part; the instance taken for that part in them is
    the identity. *)

Definition no_unicode_lower (s : str) : str := s.

Definition savings_workbook : workbook :=
  [(py "Savings",
    [[VStr (py "Savings Account")];
     [VStr (py "What is the minimum balance?")];
     [VStr (py "PKR 5,000 for savings accounts.")]])].

Definition savings_pair : QAPair :=
  mkQA (py "What is the minimum balance?")
       (py "PKR 5,000 for savings accounts.")
       (py "Savings Account") (py "Savings").

(** An FAQ file with one entry, whose question is the empty string. *)
Definition faq_with_empty_question : option (list faq_category) :=
  Some [mkFaqCategory None [mkFaqQuestion [] (py "Use the mobile app.")]].

Section Pipeline.

(** On a string that holds a character outside ASCII, [str.lower] follows
    the case-mapping tables of the Unicode database, and is not a
    character-by-character map there (U+0130 lowers to two code points, the
    capital sigma depends on its position in the word).  The development is
    parametric in that part of [str.lower]. *)
Variable unicode_lower : str -> str.

Definition lower (s : str) : str :=
  if forallb is_ascii s then map ascii_lower s else unicode_lower s.

(** ** [is_question] *)

Definition is_question (text : str) : bool :=
  let t := strip text in
  if is_empty t then false
  else if endswith t [QMARK] then true
  else
    let lower_t := lower t in
    if existsb (fun qs => startswith lower_t qs) q_starts then true
    else if contains (firstn 80 t) QMARK then true
    else false.

(** ** [extract_qa_from_sheet] *)

(** The inner loop of the product-name scan, over the cells of one row;
    [break] leaves the loop with the value found. *)
Fixpoint scan_title_cells (row : list cell_value) (product_name : str) : str :=
  match row with
  | [] => product_name
  | cell :: rest =>
      if value_truthy cell
         && negb (str_eqb (lower (strip (value_str cell))) MAIN_MARKER)
      then
        let val := strip (value_str cell) in
        if negb (startswith val [EQUALS]) then val
        else scan_title_cells rest product_name
      else scan_title_cells rest product_name
  end.

(** The outer loop runs over [ws.iter_rows(min_row=1, max_row=1)]. *)
Definition infer_product_name (ws : worksheet) (sheet_name : str) : str :=
  fold_left (fun product_name row => scan_title_cells row product_name)
            (firstn 1 ws) sheet_name.

(** The body of the loop over the cells of a row: [row_texts] after the
    cell has been looked at. *)
Definition row_texts_step (row_texts : list str) (cell : cell_value) : list str :=
  if value_is_none cell then row_texts
  else
    let val := strip (value_str cell) in
    if startswith val [EQUALS] || str_eqb (lower val) MAIN_MARKER || is_empty val
    then row_texts
    else row_texts ++ [val].

Definition collect_row_texts (row : list cell_value) : list str :=
  fold_left row_texts_step row [].

(** The body of the loop over the rows: [rows_data] after the row. *)
Definition rows_data_step (rows_data : dict) (r : N * list cell_value) : dict :=
  let row_texts := collect_row_texts (snd r) in
  if is_nil row_texts then rows_data
  else
    let combined :=
      if 1 <? length row_texts then join CELL_SEPARATOR row_texts
      else hd [] row_texts in
    dict_set rows_data (fst r) combined.

Definition collect_rows_data (ws : worksheet) : dict :=
  fold_left rows_data_step (iter_rows ws) [].

(** The segmenter's variables. *)
Record seg_state : Type := mkSeg {
  qa_pairs : list QAPair;
  current_question : option str;
  current_answer_parts : list str
}.

Definition seg_init : seg_state := mkSeg [] None [].

(** "Save previous Q&A if exists": the block that the loop runs when a
    question row arrives and that is repeated after the loop.  It returns
    [qa_pairs] after the block. *)
Definition save_pending (product_name sheet_name : str) (st : seg_state)
  : list QAPair :=
  if pending (current_question st) && negb (is_nil (current_answer_parts st))
  then
    let answer := clean_text (join [NL] (current_answer_parts st)) in
    if negb (is_empty answer)
    then qa_pairs st
         ++ [mkQA (clean_text (match current_question st with
                               | Some q => q
                               | None => []
                               end))
                  answer product_name sheet_name]
    else qa_pairs st
  else qa_pairs st.

(** One iteration of the loop over [sorted_rows[start_idx:]]. *)
Definition seg_step (product_name sheet_name : str) (st : seg_state) (text : str)
  : seg_state :=
  let text := clean_text text in
  if is_empty text then st
  else if is_question text then
    mkSeg (save_pending product_name sheet_name st) (Some text) []
  else if pending (current_question st) then
    mkSeg (qa_pairs st) (current_question st) (current_answer_parts st ++ [text])
  else st.

(** The walk over the row texts and the final save. *)
Definition segment (product_name sheet_name : str) (texts : list str)
  : list QAPair :=
  save_pending product_name sheet_name
    (fold_left (seg_step product_name sheet_name) texts seg_init).

Definition start_idx (sorted_rows : list (N * str)) (product_name : str) : nat :=
  match sorted_rows with
  | (_, text) :: _ =>
      if str_eqb (strip text) (strip product_name) then 1 else 0
  | [] => 0
  end.

Definition extract_qa_from_sheet (ws : worksheet) (sheet_name : str)
  : list QAPair :=
  let product_name := infer_product_name ws sheet_name in
  let rows_data := collect_rows_data ws in
  if is_nil rows_data then []
  else
    let sorted_rows := sorted rows_data in
    segment product_name sheet_name
      (map snd (skipn (start_idx sorted_rows product_name) sorted_rows)).

(** ** [main] *)

Record main_state : Type := mkMain {
  all_qa : list QAPair;
  skipped : list str
}.

Definition sheet_step (st : main_state) (sh : str * worksheet) : main_state :=
  let sheet_name := fst sh in
  if in_set sheet_name SKIP_SHEETS
  then mkMain (all_qa st) (skipped st ++ [sheet_name])
  else mkMain (all_qa st ++ extract_qa_from_sheet (snd sh) sheet_name)
              (skipped st).

Definition faq_pair (cat_name : str) (q : faq_question) : QAPair :=
  mkQA (clean_text (faq_q q)) (clean_text (faq_a q))
       (py "Mobile App " ++ [EN_DASH] ++ py " " ++ cat_name)
       FAQ_SHEET.

(** [cat.get("category", "General")]. *)
Definition category_name (cat : faq_category) : str :=
  match category cat with
  | Some name => name
  | None => py "General"
  end.

Definition faq_category_step (acc : list QAPair) (cat : faq_category)
  : list QAPair :=
  let cat_name := category_name cat in
  fold_left (fun acc q => acc ++ [faq_pair cat_name q]) (questions cat) acc.

(** The FAQ file is optional: [None] when the path does not exist, else the
    list under ["categories"]. *)
Definition merge_faq (acc : list QAPair) (faq : option (list faq_category))
  : list QAPair :=
  match faq with
  | None => acc
  | Some categories => fold_left faq_category_step categories acc
  end.

(** The collection [all_qa] at the point where the output files are
    written. *)
Definition collect_all_qa (wb : workbook) (faq : option (list faq_category))
  : list QAPair :=
  merge_faq (all_qa (fold_left sheet_step wb (mkMain [] []))) faq.

(** The three output files, as the records handed to the JSON writer. *)
Definition write_instruct (qas : list QAPair) : list instruct_record :=
  fold_left
    (fun f qa => f ++ [mkInstruct (question qa) [] (answer qa) (product qa)])
    qas [].

Definition write_chat (qas : list QAPair) : list chat_record :=
  fold_left
    (fun f qa => f ++ [mkChat [mkMessage system SYSTEM_PROMPT;
                               mkMessage user (question qa);
                               mkMessage assistant (answer qa)]])
    qas [].

Record outputs : Type := mkOutputs {
  out_json_all : list QAPair;
  out_jsonl_instruct : list instruct_record;
  out_jsonl_chat : list chat_record
}.

Definition main (wb : workbook) (faq : option (list faq_category)) : outputs :=
  let qas := collect_all_qa wb faq in
  mkOutputs qas (write_instruct qas) (write_chat qas).



(** ** [get_all_cell_values] *)

(** [cell.column_letter] of the cell in column [col] (from 1): openpyxl's
    letters A, B, ..., Z, AA, ...; the development is parametric in them. *)
Variable column_letter : nat -> str.

(** The cells of a row with their column numbers. *)
Definition enumerate_cells (row : list cell_value) : list (nat * cell_value) :=
  combine (seq 1 (length row)) row.

(** The body of the loop over the cells of the row [row_idx]: [results]
    after the cell. *)
Definition cell_values_step (row_idx : N) (results : list (N * str * str))
           (c : nat * cell_value) : list (N * str * str) :=
  let cell := snd c in
  if value_is_none cell then results
  else
    let val := strip (value_str cell) in
    if startswith val [EQUALS] then results
    else if str_eqb (lower val) MAIN_MARKER then results
    else if is_empty val then results
    else results ++ [(row_idx, column_letter (fst c), val)].

Definition get_all_cell_values (ws : worksheet) : list (N * str * str) :=
  fold_left
    (fun results r =>
       fold_left (cell_values_step (fst r)) (enumerate_cells (snd r)) results)
    (iter_rows ws) [].

(** ** The figures [main] prints *)

(** [sum(len(c.get('questions', [])) for c in faq_data.get('categories', []))],
    the count printed for the FAQ file. *)
Definition faq_count (categories : list faq_category) : nat :=
  list_sum (map (fun c => length (questions c)) categories).

(** [products], a dict from product name to count, in insertion order. *)
Definition counter := list (str * nat).

(** [d.get(k)]. *)
Fixpoint counter_get (d : counter) (k : str) : option nat :=
  match d with
  | [] => None
  | (k', v) :: d' => if str_eqb k' k then Some v else counter_get d' k
  end.

(** [d.setdefault(k, v)], for its effect on [d]. *)
Fixpoint setdefault (d : counter) (k : str) (v : nat) : counter :=
  match d with
  | [] => [(k, v)]
  | (k', v') :: d' =>
      if str_eqb k' k then d else (k', v') :: setdefault d' k v
  end.

(** [d[k] += 1]: [None] stands for the [KeyError] of a missing key. *)
Fixpoint add_one (d : counter) (k : str) : option counter :=
  match d with
  | [] => None
  | (k', v) :: d' =>
      if str_eqb k' k then Some ((k', v + 1) :: d')
      else option_map (cons (k', v)) (add_one d' k)
  end.

(** One iteration of the loop over [all_qa] that fills [products]. *)
Definition count_step (products : option counter) (qa : QAPair)
  : option counter :=
  match products with
  | None => None
  | Some d => add_one (setdefault d (product qa) 0) (product qa)
  end.

Definition product_counts (qas : list QAPair) : option counter :=
  fold_left count_step qas (Some []).

(** [sorted(products.items(), key=lambda x: -x[1])]: a stable sort, the
    larger counts first. *)
Fixpoint insert_by_count (x : str * nat) (l : counter) : counter :=
  match l with
  | [] => [x]
  | y :: l' => if snd y <=? snd x then x :: l else y :: insert_by_count x l'
  end.

Definition sorted_by_count (d : counter) : counter :=
  fold_right insert_by_count [] d.

(** ** The notions of the statements *)

(** A string that does not start with a character of the class. *)
Definition starts_outside (p : char -> bool) (s : str) : Prop :=
  match s with
  | [] => True
  | c :: _ => p c = false
  end.

(** [pat] occurs in [t] as a block of consecutive characters. *)
Definition has_infix (pat t : str) : Prop :=
  exists pre post, t = pre ++ pat ++ post.

(** The only whitespace a normalized text holds is the space and the
    newline. *)
Definition plain_space (c : char) : Prop :=
  space_not_newline c = true -> c = SPACE.

Definition normal (t : str) : Prop :=
  starts_outside isspace t
  /\ starts_outside isspace (rev t)
  /\ Forall plain_space t
  /\ ~ has_infix [SPACE; SPACE] t
  /\ ~ has_infix [NL; NL; NL] t.

(** How the loop treats a row: it skips a text that is empty after
    normalization, and takes any other as a question or as an answer line. *)
Inductive row_kind : Type := Blank | Question | Answer.

Definition classify (text : str) : row_kind :=
  let text := clean_text text in
  if is_empty text then Blank
  else if is_question text then Question
  else Answer.

(** What every pair of the segmenter satisfies. *)
Definition well_formed_pair (product_name sheet_name : str) (qa : QAPair) : Prop :=
  question qa <> []
  /\ clean_text (question qa) = question qa
  /\ answer qa <> []
  /\ clean_text (answer qa) = answer qa
  /\ product qa = product_name
  /\ sheet qa = sheet_name.

(** The invariant of the loop: the pairs saved so far are well formed and
    the pending question is a non-empty normalized text. *)
Definition seg_invariant (product_name sheet_name : str) (st : seg_state) : Prop :=
  Forall (well_formed_pair product_name sheet_name) (qa_pairs st)
  /\ forall q, current_question st = Some q -> q <> [] /\ clean_text q = q.

(** The text of a cell: no text for an empty cell, else the trimmed
    rendering of the value. *)
Definition cell_texts (row : list cell_value) : list str :=
  flat_map (fun cell => match cell with
                        | VNone => []
                        | _ => [strip (value_str cell)]
                        end) row.

(** A cell text survives when it is not empty, is not a formula reference
    and is not the navigation marker. *)
Definition survives (text : str) : bool :=
  negb (is_empty text)
  && negb (startswith text [EQUALS])
  && negb (str_eqb (lower text) MAIN_MARKER).

Definition surviving_texts (row : list cell_value) : list str :=
  filter survives (cell_texts row).

(** The RowUnit of a numbered row, as a list of at most one element. *)
Definition row_unit (r : N * list cell_value) : list (N * str) :=
  match surviving_texts (snd r) with
  | [] => []
  | [text] => [(fst r, text)]
  | texts => [(fst r, join CELL_SEPARATOR texts)]
  end.

(** Row numbers from [lo] on, strictly ascending. *)
Fixpoint ascending_from (lo : N) (l : list (N * str)) : Prop :=
  match l with
  | [] => True
  | x :: l' => (lo <= fst x)%N /\ ascending_from (fst x + 1) l'
  end.

(** The product name as the specification words it: the first cell text of
    the first row that is not empty, not the marker and not a formula
    reference, else the name of the sheet. *)
Definition spec_product_name (ws : worksheet) (sheet_name : str) : str :=
  match find survives (cell_texts (hd [] ws)) with
  | Some text => text
  | None => sheet_name
  end.

(** A cell whose truth value says whether its trimmed text is empty: an
    empty cell, an empty string, a string that is not blank, a value other
    than a string that is true.  A string of whitespace only (true, with an
    empty text) and a zero (false, with the text "0") are not of that
    kind. *)
Definition regular_cell (cell : cell_value) : Prop :=
  match cell with
  | VNone => True
  | _ => value_truthy cell = negb (is_empty (strip (value_str cell)))
  end.

(** What a sheet adds to [all_qa]. *)
Definition contribution (sh : str * worksheet) : list QAPair :=
  if in_set (fst sh) SKIP_SHEETS then []
  else extract_qa_from_sheet (snd sh) (fst sh).

Definition instruct_of (qa : QAPair) : instruct_record :=
  mkInstruct (question qa) [] (answer qa) (product qa).

Definition chat_of (qa : QAPair) : chat_record :=
  mkChat [mkMessage system SYSTEM_PROMPT;
          mkMessage user (question qa);
          mkMessage assistant (answer qa)].

(** The pairs the FAQ merge appends. *)
Definition faq_pairs (faq : option (list faq_category)) : list QAPair :=
  match faq with
  | None => []
  | Some categories =>
      flat_map (fun cat => map (faq_pair (category_name cat)) (questions cat))
               categories
  end.

(** A cell of the first row that, when the scan takes it, has a text that
    is not empty. *)
Definition titled_cell (cell : cell_value) : Prop :=
  value_truthy cell = true -> strip (value_str cell) <> [].

(** A pair that a sheet of the workbook gave. *)
Definition sheet_pair (wb : workbook) (qa : QAPair) : Prop :=
  exists sh,
    In sh wb /\ in_set (fst sh) SKIP_SHEETS = false
    /\ In qa (extract_qa_from_sheet (snd sh) (fst sh))
    /\ question qa <> [] /\ clean_text (question qa) = question qa
    /\ answer qa <> [] /\ clean_text (answer qa) = answer qa
    /\ sheet qa = fst sh /\ sheet qa <> []
    /\ product qa = infer_product_name (snd sh) (fst sh)
    /\ (Forall titled_cell (hd [] (snd sh)) -> product qa <> []).

(** A pair that the FAQ merge appended. *)
Definition faq_merge_pair (faq : option (list faq_category)) (qa : QAPair)
  : Prop :=
  exists categories cat q,
    faq = Some categories /\ In cat categories /\ In q (questions cat)
    /\ question qa = clean_text (faq_q q)
    /\ answer qa = clean_text (faq_a q)
    /\ product qa = py "Mobile App " ++ [EN_DASH] ++ py " " ++ category_name cat
    /\ product qa <> []
    /\ sheet qa = FAQ_SHEET /\ sheet qa <> [].

(** The characters of a string that are not whitespace, in their order. *)
Definition visible (s : str) : str := filter (fun c => negb (isspace c)) s.

(** The rows that a state of the segmenter accounts for: two for every pair
    saved, one for a pending question and one more when it has an answer
    line. *)
Definition seg_weight (st : seg_state) : nat :=
  2 * length (qa_pairs st)
  + (if pending (current_question st)
     then if is_nil (current_answer_parts st) then 1 else 2
     else 0).

(** A list of rows that is empty or starts with a question row. *)
Definition starts_with_question (texts : list str) : Prop :=
  match texts with
  | [] => True
  | text :: _ => classify text = Question
  end.

(** A text that is not empty and has no whitespace at either end. *)
Definition trimmed_text (t : str) : Prop :=
  t <> [] /\ starts_outside isspace t /\ starts_outside isspace (rev t).

(** The number of pairs of a product. *)
Definition product_count (qas : list QAPair) (p : str) : nat :=
  length (filter (fun qa => str_eqb (product qa) p) qas).

(** The count a table holds for a product, 0 for none. *)
Definition counter_value (d : counter) (k : str) : nat :=
  match counter_get d k with
  | Some v => v
  | None => 0
  end.

(** The sheets that the loop of [main] hands to [extract_qa_from_sheet]. *)
Definition processed_sheets (wb : workbook) : workbook :=
  filter (fun sh => negb (in_set (fst sh) SKIP_SHEETS)) wb.

(** The entries that [get_all_cell_values] gives for a cell: one for a cell
    whose text survives, none for another. *)
Definition cell_entries (row_idx : N) (c : nat * cell_value)
  : list (N * str * str) :=
  map (fun text => (row_idx, column_letter (fst c), text))
      (surviving_texts [snd c]).

(** The text of a row for the segmenter: none when no cell survives, the
    surviving text, or the surviving texts joined. *)
Definition row_text (row : list cell_value) : list str :=
  match surviving_texts row with
  | [] => []
  | [text] => [text]
  | texts => [join CELL_SEPARATOR texts]
  end.

(** The pairs saved so far and the pending question all hold a text that
    the heuristic takes for a question. *)
Definition questions_invariant (st : seg_state) : Prop :=
  Forall (fun qa => is_question (question qa) = true) (qa_pairs st)
  /\ forall q, current_question st = Some q ->
               is_question q = true /\ clean_text q = q.

(** * Proofs *)

(** ** Lists of characters *)

Lemma take_drop_while (p : char -> bool) (s : str) :
  take_while p s ++ drop_while p s = s.
Proof.
  induction s as [|c s IH]; simpl; [reflexivity|].
  destruct (p c); simpl; [now rewrite IH | reflexivity].
Qed.

Lemma take_while_all (p : char -> bool) (s : str) :
  Forall (fun c => p c = true) (take_while p s).
Proof.
  induction s as [|c s IH]; simpl; [constructor|].
  destruct (p c) eqn:E; [constructor; assumption | constructor].
Qed.

Lemma drop_while_head (p : char -> bool) (s : str) (c : char) (t : str) :
  drop_while p s = c :: t -> p c = false.
Proof.
  induction s as [|d s IH]; simpl; [discriminate|].
  destruct (p d) eqn:E; [exact IH|].
  intros H. injection H as -> _. exact E.
Qed.

Lemma drop_while_length (p : char -> bool) (s : str) :
  length (drop_while p s) <= length s.
Proof.
  induction s as [|c s IH]; simpl; [lia|].
  destruct (p c); simpl; lia.
Qed.

Lemma drop_while_starts_outside (p : char -> bool) (s : str) :
  starts_outside p (drop_while p s).
Proof.
  destruct (drop_while p s) as [|c t] eqn:E; simpl; [exact I|].
  exact (drop_while_head _ _ _ _ E).
Qed.

Lemma drop_while_id (p : char -> bool) (s : str) :
  starts_outside p s -> drop_while p s = s.
Proof.
  destruct s as [|c s]; simpl; [reflexivity|]. now intros ->.
Qed.

Lemma take_while_nil (p : char -> bool) (s : str) :
  starts_outside p s -> take_while p s = [].
Proof.
  destruct s as [|c s]; simpl; [reflexivity|]. now intros ->.
Qed.

Lemma take_while_app (p : char -> bool) (r rest : str) :
  Forall (fun c => p c = true) r -> starts_outside p rest ->
  take_while p (r ++ rest) = r /\ drop_while p (r ++ rest) = rest.
Proof.
  intros Hr Hrest. induction Hr as [|c r Hc _ [IH1 IH2]]; simpl.
  - split; [now apply take_while_nil | now apply drop_while_id].
  - rewrite Hc, IH1, IH2. now split.
Qed.

(** ** [re.sub] against the collapse of runs *)

Lemma split_runs_run (cls : char -> bool) (c : char) (s : str) :
  cls c = true ->
  split_runs cls (c :: s)
  = Run (c :: take_while cls s) :: split_runs cls (drop_while cls s).
Proof.
  revert c. induction s as [|d s IH]; intros c Hc.
  - simpl. now rewrite Hc.
  - change (split_runs cls (c :: d :: s))
      with (if cls c then
              match split_runs cls (d :: s) with
              | Run r :: ps => Run (c :: r) :: ps
              | ps => Run [c] :: ps
              end
            else Other c :: split_runs cls (d :: s)).
    rewrite Hc. simpl take_while. simpl drop_while.
    destruct (cls d) eqn:Hd.
    + now rewrite (IH d Hd).
    + simpl. now rewrite Hd.
Qed.

Lemma re_sub_run_short (cls : char -> bool) (lo : nat) (repl r rest : str) :
  Forall (fun c => cls c = true) r -> starts_outside cls rest ->
  length r < lo ->
  re_sub_run cls lo repl (r ++ rest) = r ++ re_sub_run cls lo repl rest.
Proof.
  intros Hr Hrest. induction Hr as [|c r Hc Hr IH]; intros Hlen; [reflexivity|].
  simpl app. rewrite re_sub_run_equation_2.
  destruct (take_while_app cls r rest Hr Hrest) as [-> _].
  simpl in Hlen.
  replace (lo <=? S (length r)) with false
    by (symmetry; apply Nat.leb_gt; lia).
  rewrite andb_false_r. f_equal. apply IH. lia.
Qed.

Lemma re_sub_run_collapse (cls : char -> bool) (lo : nat) (repl s : str) :
  re_sub_run cls lo repl s = collapse_runs cls lo repl s.
Proof.
  remember (length s) as n eqn:Hn. revert s Hn.
  induction n as [n IH] using lt_wf_ind. intros s Hn.
  destruct s as [|c s]; [reflexivity|].
  rewrite re_sub_run_equation_2. unfold collapse_runs.
  destruct (cls c) eqn:Hc.
  - rewrite (split_runs_run cls c s Hc). simpl flat_map. simpl length.
    assert (Hdw : re_sub_run cls lo repl (drop_while cls s)
                  = flat_map (collapse_piece lo repl)
                             (split_runs cls (drop_while cls s))).
    { apply (IH (length (drop_while cls s))); [|reflexivity].
      subst n. simpl. pose proof (drop_while_length cls s). lia. }
    simpl andb. destruct (lo <=? S (length (take_while cls s))) eqn:Hlo.
    + now rewrite Hdw.
    + simpl. f_equal. rewrite <- Hdw.
      rewrite <- (take_drop_while cls s) at 1.
      apply re_sub_run_short.
      * apply take_while_all.
      * apply drop_while_starts_outside.
      * apply Nat.leb_gt in Hlo. lia.
  - simpl. rewrite Hc. simpl. f_equal.
    apply (IH (length s)); [subst n; simpl; lia | reflexivity].
Qed.

(** C7. [clean_text] is the normalization the specification describes: trim,
    tabs to single spaces, every run of non-newline whitespace to one space,
    every run of three or more newlines to exactly two, trim again; the
    empty string is mapped to the empty string. *)
Theorem clean_text_is_spec_normalize (text : str) :
  clean_text text = spec_normalize text.
Proof.
  unfold clean_text, spec_normalize. destruct text as [|c text]; [reflexivity|].
  simpl is_empty. cbv zeta. unfold sub_newlines, sub_spaces.
  now rewrite !re_sub_run_collapse.
Qed.

(** ** The normal form of [clean_text] *)

Lemma str_length_ind (P : str -> Prop) :
  (forall s, (forall t, length t < length s -> P t) -> P s) ->
  forall s, P s.
Proof.
  intros step s. remember (length s) as n eqn:Hn. revert s Hn.
  induction n as [n IH] using lt_wf_ind. intros s ->.
  apply step. intros t Ht. exact (IH _ Ht t eq_refl).
Qed.

Lemma has_infix_cons (pat : str) (c : char) (t : str) :
  has_infix pat (c :: t) ->
  (exists post, c :: t = pat ++ post) \/ has_infix pat t.
Proof.
  intros [[|d pre] [post H]].
  - left. now exists post.
  - right. simpl in H. injection H as _ H. now exists pre, post.
Qed.

Lemma has_infix_inside (pat l t r : str) :
  has_infix pat t -> has_infix pat (l ++ t ++ r).
Proof.
  intros [pre [post ->]]. exists (l ++ pre), (post ++ r).
  now rewrite <- !app_assoc.
Qed.

Lemma has_infix_tail (pat : str) (c : char) (t : str) :
  has_infix pat t -> has_infix pat (c :: t).
Proof.
  intros H. apply (has_infix_inside pat [c] t []) in H.
  now rewrite app_nil_r in H.
Qed.

Lemma has_infix_drop_while (pat : str) (p : char -> bool) (t : str) :
  has_infix pat (drop_while p t) -> has_infix pat t.
Proof.
  intros H. apply (has_infix_inside pat (take_while p t) _ []) in H.
  now rewrite app_nil_r, take_drop_while in H.
Qed.

Lemma Forall_drop_while (P : char -> Prop) (p : char -> bool) (t : str) :
  Forall P t -> Forall P (drop_while p t).
Proof.
  intros H. rewrite <- (take_drop_while p t) in H.
  now apply Forall_app in H.
Qed.

(** [strip] cuts whitespace off both ends and nothing else. *)
Lemma lstrip_decompose (s : str) :
  s = take_while isspace s ++ lstrip s.
Proof. symmetry. apply take_drop_while. Qed.

Lemma rstrip_decompose (s : str) :
  s = rstrip s ++ rev (take_while isspace (rev s)).
Proof.
  unfold rstrip. rewrite <- rev_app_distr, take_drop_while.
  symmetry. apply rev_involutive.
Qed.

Lemma strip_decompose (s : str) :
  s = take_while isspace s ++ strip s
      ++ rev (take_while isspace (rev (lstrip s))).
Proof.
  rewrite (lstrip_decompose s) at 1. f_equal.
  apply rstrip_decompose.
Qed.

Lemma strip_spec (s : str) :
  exists l r,
    s = l ++ strip s ++ r
    /\ Forall (fun c => isspace c = true) l
    /\ Forall (fun c => isspace c = true) r
    /\ starts_outside isspace (strip s)
    /\ starts_outside isspace (rev (strip s)).
Proof.
  exists (take_while isspace s), (rev (take_while isspace (rev (lstrip s)))).
  split; [apply strip_decompose|].
  split; [apply take_while_all|].
  split; [apply Forall_rev, take_while_all|].
  assert (Hend : starts_outside isspace (rev (strip s))).
  { unfold strip, rstrip. rewrite rev_involutive.
    apply drop_while_starts_outside. }
  split; [|exact Hend].
  pose proof (drop_while_starts_outside isspace s) as Hl.
  fold (lstrip s) in Hl. rewrite (rstrip_decompose (lstrip s)) in Hl.
  fold (strip s) in Hl. destruct (strip s); simpl in *; [exact I | exact Hl].
Qed.

Lemma strip_fixed (t : str) :
  starts_outside isspace t -> starts_outside isspace (rev t) -> strip t = t.
Proof.
  intros H1 H2. unfold strip, lstrip, rstrip.
  rewrite (drop_while_id _ _ H1), (drop_while_id _ _ H2).
  apply rev_involutive.
Qed.

Lemma strip_idempotent (s : str) : strip (strip s) = strip s.
Proof.
  destruct (strip_spec s) as (l & r & _ & _ & _ & H1 & H2).
  now apply strip_fixed.
Qed.

Lemma is_newline_eq (c : char) : is_newline c = true -> c = NL.
Proof. apply N.eqb_eq. Qed.

Lemma plain_space_NL : plain_space NL.
Proof. intros H. discriminate H. Qed.

Lemma plain_space_SPACE : plain_space SPACE.
Proof. intros _. reflexivity. Qed.

Lemma sub_spaces_cons (c : char) (s : str) :
  sub_spaces (c :: s)
  = if space_not_newline c
    then SPACE :: sub_spaces (drop_while space_not_newline s)
    else c :: sub_spaces s.
Proof.
  unfold sub_spaces. rewrite re_sub_run_equation_2.
  destruct (space_not_newline c); reflexivity.
Qed.

Lemma sub_newlines_cons (c : char) (s : str) :
  sub_newlines (c :: s)
  = if is_newline c && (2 <=? length (take_while is_newline s))
    then NL :: NL :: sub_newlines (drop_while is_newline s)
    else c :: sub_newlines s.
Proof.
  unfold sub_newlines. rewrite re_sub_run_equation_2.
  change (3 <=? S (length (take_while is_newline s)))
    with (2 <=? length (take_while is_newline s)).
  destruct (is_newline c && (2 <=? length (take_while is_newline s)));
    reflexivity.
Qed.

(** *** What the substitutions produce *)

Lemma sub_spaces_head (s : str) :
  starts_outside space_not_newline s ->
  starts_outside (fun c => c =? SPACE)%N (sub_spaces s).
Proof.
  destruct s as [|c s]; [intros _; exact I|].
  simpl. intros Hc. rewrite sub_spaces_cons, Hc. simpl.
  apply N.eqb_neq. intros ->. discriminate Hc.
Qed.

Lemma sub_spaces_plain (s : str) : Forall plain_space (sub_spaces s).
Proof.
  induction s as [s IH] using str_length_ind.
  destruct s as [|c s]; [constructor|].
  rewrite sub_spaces_cons. destruct (space_not_newline c) eqn:Hc.
  - constructor; [apply plain_space_SPACE|].
    apply IH. simpl. pose proof (drop_while_length space_not_newline s). lia.
  - constructor; [intros H; congruence|].
    apply IH. simpl. lia.
Qed.

Lemma sub_spaces_no_double (s : str) :
  ~ has_infix [SPACE; SPACE] (sub_spaces s).
Proof.
  induction s as [s IH] using str_length_ind.
  destruct s as [|c s].
  - intros [[|? ?] [? H]]; discriminate H.
  - rewrite sub_spaces_cons. destruct (space_not_newline c) eqn:Hc.
    + intros H. apply has_infix_cons in H. destruct H as [[post H]|H].
      * pose proof (sub_spaces_head _
          (drop_while_starts_outside space_not_newline s)) as Hh.
        simpl in H. injection H as H. rewrite H in Hh. simpl in Hh.
        discriminate Hh.
      * revert H. apply IH. simpl.
        pose proof (drop_while_length space_not_newline s). lia.
    + intros H. apply has_infix_cons in H. destruct H as [[post H]|H].
      * simpl in H. injection H as -> _. discriminate Hc.
      * revert H. apply IH. simpl. lia.
Qed.

Lemma sub_newlines_head (s : str) :
  hd_error (sub_newlines s) = hd_error s.
Proof.
  destruct s as [|c s]; [reflexivity|].
  rewrite sub_newlines_cons.
  destruct (is_newline c) eqn:Hc; cbn [andb]; [|reflexivity].
  destruct (2 <=? length (take_while is_newline s)); [|reflexivity].
  now rewrite (is_newline_eq c Hc).
Qed.

Lemma sub_newlines_starts_outside (p : char -> bool) (s : str) :
  starts_outside p s -> starts_outside p (sub_newlines s).
Proof.
  pose proof (sub_newlines_head s) as H.
  destruct s as [|c s], (sub_newlines _) as [|d t];
    simpl in *; try discriminate; auto.
  injection H as ->. auto.
Qed.

Lemma sub_newlines_plain (s : str) :
  Forall plain_space s -> Forall plain_space (sub_newlines s).
Proof.
  induction s as [s IH] using str_length_ind. intros Hs.
  destruct s as [|c s]; [constructor|].
  rewrite sub_newlines_cons. inversion Hs as [|? ? Hc Hs']; subst.
  destruct (is_newline c && (2 <=? length (take_while is_newline s))).
  - constructor; [apply plain_space_NL|].
    constructor; [apply plain_space_NL|].
    apply IH; [|now apply Forall_drop_while].
    simpl. pose proof (drop_while_length is_newline s). lia.
  - constructor; [exact Hc|]. apply IH; [simpl; lia | exact Hs'].
Qed.

Lemma sub_newlines_no_double_space (s : str) :
  ~ has_infix [SPACE; SPACE] s ->
  ~ has_infix [SPACE; SPACE] (sub_newlines s).
Proof.
  induction s as [s IH] using str_length_ind. intros Hs.
  destruct s as [|c s]; [exact Hs|].
  rewrite sub_newlines_cons.
  destruct (is_newline c && (2 <=? length (take_while is_newline s))).
  - intros H. apply has_infix_cons in H.
    destruct H as [[post H]|H]; [discriminate H|].
    apply has_infix_cons in H.
    destruct H as [[post H]|H]; [discriminate H|].
    revert H. apply IH.
    + simpl. pose proof (drop_while_length is_newline s). lia.
    + intros H. apply Hs, has_infix_tail.
      now apply (has_infix_drop_while _ is_newline).
  - intros H. apply has_infix_cons in H. destruct H as [[post H]|H].
    + simpl in H. injection H as -> H.
      pose proof (sub_newlines_head s) as Hh. rewrite H in Hh.
      destruct s as [|d s]; [discriminate Hh|].
      simpl in Hh. injection Hh as <-.
      apply Hs. now exists [], s.
    + revert H. apply IH; [simpl; lia|].
      intros H. now apply Hs, has_infix_tail.
Qed.

Lemma sub_newlines_short_run (s : str) :
  length (take_while is_newline s) <= 1 ->
  length (take_while is_newline (sub_newlines s)) <= 1.
Proof.
  destruct s as [|c s]; [intros _; apply Nat.le_0_l|].
  rewrite sub_newlines_cons. cbn [take_while].
  destruct (is_newline c) eqn:Hc; cbn [andb length];
    [|cbn [take_while]; rewrite Hc; simpl; lia].
  intros Hlen.
  replace (2 <=? length (take_while is_newline s)) with false
    by (symmetry; apply Nat.leb_gt; lia).
  cbn [take_while]. rewrite Hc. cbn [length].
  assert (Hs : starts_outside is_newline s).
  { destruct s as [|d s]; simpl in *; [exact I|].
    destruct (is_newline d); [simpl in Hlen; lia | reflexivity]. }
  now rewrite (take_while_nil _ _ (sub_newlines_starts_outside _ _ Hs)).
Qed.

Lemma sub_newlines_no_triple (s : str) :
  ~ has_infix [NL; NL; NL] (sub_newlines s).
Proof.
  induction s as [s IH] using str_length_ind.
  destruct s as [|c s].
  - intros [[|? ?] [? H]]; discriminate H.
  - rewrite sub_newlines_cons.
    destruct (is_newline c) eqn:Hc; cbn [andb].
    + destruct (2 <=? length (take_while is_newline s)) eqn:Hrun.
      * pose proof (sub_newlines_starts_outside _ _
          (drop_while_starts_outside is_newline s)) as Hh.
        intros H. apply has_infix_cons in H. destruct H as [[post H]|H].
        { simpl in H. injection H as H. rewrite H in Hh. discriminate Hh. }
        apply has_infix_cons in H. destruct H as [[post H]|H].
        { simpl in H. injection H as H. rewrite H in Hh. discriminate Hh. }
        revert H. apply IH. simpl.
        pose proof (drop_while_length is_newline s). lia.
      * intros H. apply has_infix_cons in H. destruct H as [[post H]|H].
        { simpl in H. injection H as _ H.
          apply Nat.leb_gt in Hrun.
          assert (Hle : length (take_while is_newline s) <= 1) by lia.
          apply sub_newlines_short_run in Hle. rewrite H in Hle.
          simpl in Hle. lia. }
        revert H. apply IH. simpl. lia.
    + intros H. apply has_infix_cons in H. destruct H as [[post H]|H].
      * simpl in H. injection H as -> _. discriminate Hc.
      * revert H. apply IH. simpl. lia.
Qed.

(** *** What the substitutions leave alone *)

Lemma replace_tab_fixed (t : str) :
  Forall plain_space t -> replace t TAB SPACE = t.
Proof.
  induction 1 as [|c t Hc _ IH]; [reflexivity|].
  simpl. rewrite IH. destruct (c =? TAB)%N eqn:E; [|reflexivity].
  apply N.eqb_eq in E. subst c. now rewrite (Hc eq_refl).
Qed.

Lemma sub_spaces_fixed (t : str) :
  Forall plain_space t -> ~ has_infix [SPACE; SPACE] t -> sub_spaces t = t.
Proof.
  induction 1 as [|c t Hc Ht IH]; intros Hno; [reflexivity|].
  assert (IH' : sub_spaces t = t).
  { apply IH. intros H. now apply Hno, has_infix_tail. }
  rewrite sub_spaces_cons. destruct (space_not_newline c) eqn:Ec.
  - rewrite (Hc Ec) in *. rewrite drop_while_id; [now rewrite IH'|].
    destruct t as [|d t]; simpl; [exact I|].
    destruct (space_not_newline d) eqn:Ed; [|reflexivity].
    exfalso. apply Hno. inversion Ht as [|? ? Hd _]; subst.
    rewrite (Hd Ed). now exists [], t.
  - now rewrite IH'.
Qed.

Lemma sub_newlines_fixed (t : str) :
  ~ has_infix [NL; NL; NL] t -> sub_newlines t = t.
Proof.
  induction t as [|c t IH]; intros Hno; [reflexivity|].
  rewrite sub_newlines_cons.
  destruct (is_newline c && (2 <=? length (take_while is_newline t))) eqn:E.
  - exfalso. apply andb_true_iff in E. destruct E as [Ec Erun].
    apply Nat.leb_le in Erun. apply Hno.
    rewrite (is_newline_eq c Ec).
    destruct t as [|d [|e t]]; simpl in Erun; try lia;
      destruct (is_newline d) eqn:Ed; simpl in Erun; try lia.
    destruct (is_newline e) eqn:Ee; simpl in Erun; try lia.
    rewrite (is_newline_eq d Ed), (is_newline_eq e Ee). now exists [], t.
  - f_equal. apply IH. intros H. now apply Hno, has_infix_tail.
Qed.

(** *** The normal form *)

Lemma clean_text_normal (s : str) : normal (clean_text s).
Proof.
  unfold clean_text. destruct s as [|c s]; cbn [is_empty].
  - repeat split; try constructor;
      intros [[|? ?] [? H]]; discriminate H.
  - cbv zeta.
    set (w := sub_newlines (sub_spaces (replace (strip (c :: s)) TAB SPACE))).
    destruct (strip_spec w) as (l & r & Hw & _ & _ & H1 & H2).
    assert (Hplain : Forall plain_space w)
      by apply sub_newlines_plain, sub_spaces_plain.
    assert (Hsp : ~ has_infix [SPACE; SPACE] w)
      by apply sub_newlines_no_double_space, sub_spaces_no_double.
    assert (Hnl : ~ has_infix [NL; NL; NL] w)
      by apply sub_newlines_no_triple.
    rewrite Hw in Hplain, Hsp, Hnl.
    repeat split; try assumption.
    + apply Forall_app in Hplain. destruct Hplain as [_ Hplain].
      apply Forall_app in Hplain. exact (proj1 Hplain).
    + intros H. now apply Hsp, has_infix_inside.
    + intros H. now apply Hnl, has_infix_inside.
Qed.

Lemma normal_fixed (t : str) : normal t -> clean_text t = t.
Proof.
  intros (H1 & H2 & Hplain & Hsp & Hnl).
  unfold clean_text. destruct (is_empty t) eqn:E.
  - destruct t; [reflexivity | discriminate E].
  - cbv zeta. rewrite (strip_fixed t H1 H2).
    rewrite (replace_tab_fixed t Hplain).
    rewrite (sub_spaces_fixed t Hplain Hsp).
    rewrite (sub_newlines_fixed t Hnl).
    exact (strip_fixed t H1 H2).
Qed.

Lemma clean_text_idempotent (s : str) :
  clean_text (clean_text s) = clean_text s.
Proof. apply normal_fixed, clean_text_normal. Qed.

(** ** The segmenter *)

Lemma is_empty_false (s : str) : is_empty s = false -> s <> [].
Proof. destruct s; [discriminate | discriminate]. Qed.

Lemma save_pending_well_formed (product_name sheet_name : str) (st : seg_state) :
  seg_invariant product_name sheet_name st ->
  Forall (well_formed_pair product_name sheet_name)
         (save_pending product_name sheet_name st).
Proof.
  intros [Hpairs Hq]. unfold save_pending.
  destruct (pending (current_question st)
            && negb (is_nil (current_answer_parts st))) eqn:E; [|exact Hpairs].
  destruct (is_empty (clean_text (join [NL] (current_answer_parts st)))) eqn:Ea;
    simpl; [exact Hpairs|].
  apply Forall_app. split; [exact Hpairs|]. constructor; [|constructor].
  apply andb_true_iff in E. destruct E as [E _].
  destruct (current_question st) as [q|]; [|discriminate E].
  destruct (Hq q eq_refl) as [Hne Hfix].
  apply is_empty_false in Ea.
  unfold well_formed_pair. simpl. rewrite Hfix.
  repeat split; auto using clean_text_idempotent.
Qed.

Lemma seg_step_invariant (product_name sheet_name : str) (st : seg_state)
      (text : str) :
  seg_invariant product_name sheet_name st ->
  seg_invariant product_name sheet_name
                (seg_step product_name sheet_name st text).
Proof.
  intros Hinv. unfold seg_step.
  destruct (is_empty (clean_text text)) eqn:E; [exact Hinv|].
  destruct (is_question (clean_text text)).
  - split; simpl.
    + now apply save_pending_well_formed.
    + intros q [= <-]. split; [now apply is_empty_false|].
      apply clean_text_idempotent.
  - destruct (pending (current_question st)); [|exact Hinv].
    destruct Hinv as [Hp Hq]. split; simpl; assumption.
Qed.

Lemma seg_run_invariant (product_name sheet_name : str) (texts : list str)
      (st : seg_state) :
  seg_invariant product_name sheet_name st ->
  seg_invariant product_name sheet_name
                (fold_left (seg_step product_name sheet_name) texts st).
Proof.
  revert st. induction texts as [|t texts IH]; intros st Hinv; [exact Hinv|].
  simpl. now apply IH, seg_step_invariant.
Qed.

Lemma seg_init_invariant (product_name sheet_name : str) :
  seg_invariant product_name sheet_name seg_init.
Proof. split; [constructor | discriminate]. Qed.

Lemma segment_well_formed (product_name sheet_name : str) (texts : list str) :
  Forall (well_formed_pair product_name sheet_name)
         (segment product_name sheet_name texts).
Proof.
  apply save_pending_well_formed, seg_run_invariant, seg_init_invariant.
Qed.

(** C10. [clean_text] is idempotent, so the question of the segmenter, which
    is stored normalized, is not changed by the normalization at the time
    the pair is saved. *)
Theorem clean_text_idempotent_and_question_stable
        (s product_name sheet_name : str) (texts : list str) :
  clean_text (clean_text s) = clean_text s
  /\ let st := fold_left (seg_step product_name sheet_name) texts seg_init in
     option_map clean_text (current_question st) = current_question st.
Proof.
  split; [apply clean_text_idempotent|].
  intros st.
  destruct (seg_run_invariant product_name sheet_name texts seg_init
              (seg_init_invariant _ _)) as [_ Hq].
  fold st in Hq. destruct (current_question st) as [q|]; [|reflexivity].
  simpl. f_equal. exact (proj2 (Hq q eq_refl)).
Qed.

Lemma classify_question (text : str) :
  classify text = Question ->
  is_empty (clean_text text) = false /\ is_question (clean_text text) = true.
Proof.
  unfold classify.
  destruct (is_empty (clean_text text)); [discriminate|].
  destruct (is_question (clean_text text)); [tauto | discriminate].
Qed.

Lemma classify_answer (text : str) :
  classify text = Answer ->
  is_empty (clean_text text) = false /\ is_question (clean_text text) = false.
Proof.
  unfold classify.
  destruct (is_empty (clean_text text)); [discriminate|].
  destruct (is_question (clean_text text)); [discriminate | tauto].
Qed.

Lemma seg_step_question (product_name sheet_name : str) (st : seg_state)
      (text : str) :
  classify text = Question ->
  seg_step product_name sheet_name st text
  = mkSeg (save_pending product_name sheet_name st) (Some (clean_text text)) [].
Proof.
  intros H. apply classify_question in H. destruct H as [E1 E2].
  unfold seg_step. now rewrite E1, E2.
Qed.

Lemma seg_step_orphan_answer (product_name sheet_name : str) (st : seg_state)
      (text : str) :
  classify text = Answer -> pending (current_question st) = false ->
  seg_step product_name sheet_name st text = st.
Proof.
  intros H Hidle. apply classify_answer in H. destruct H as [E1 E2].
  unfold seg_step. now rewrite E1, E2, Hidle.
Qed.

Lemma save_pending_no_answer (product_name sheet_name : str)
      (pairs : list QAPair) (q : option str) :
  save_pending product_name sheet_name (mkSeg pairs q []) = pairs.
Proof. unfold save_pending. simpl. now rewrite andb_false_r. Qed.

Lemma segment_app (product_name sheet_name : str) (pre rest : list str) :
  segment product_name sheet_name (pre ++ rest)
  = save_pending product_name sheet_name
      (fold_left (seg_step product_name sheet_name) rest
         (fold_left (seg_step product_name sheet_name) pre seg_init)).
Proof. unfold segment. now rewrite fold_left_app. Qed.

Lemma orphan_answers_skipped (product_name sheet_name : str) (lead : list str) :
  Forall (fun text => classify text = Answer) lead ->
  fold_left (seg_step product_name sheet_name) lead seg_init = seg_init.
Proof.
  induction 1 as [|a lead Ha _ IH]; [reflexivity|].
  simpl. now rewrite (seg_step_orphan_answer _ _ seg_init a Ha eq_refl).
Qed.

(** C4. A question that gets no answer line, because the rows end or the
    next row is a question again, and answer lines ahead of the first
    question produce no pair: the output is what it is without those rows.
    The one-row input "What is X?" gives no pair, and a note ahead of one
    question and its answer gives exactly one pair. *)
Theorem dangling_questions_and_orphan_answers_dropped
        (product_name sheet_name : str) (pre lead rest : list str)
        (q1 q2 : str) :
  classify q1 = Question ->
  classify q2 = Question ->
  Forall (fun text => classify text = Answer) lead ->
  segment product_name sheet_name (pre ++ [q1])
  = segment product_name sheet_name pre
  /\ segment product_name sheet_name (pre ++ q1 :: q2 :: rest)
     = segment product_name sheet_name (pre ++ q2 :: rest)
  /\ segment product_name sheet_name (lead ++ rest)
     = segment product_name sheet_name rest
  /\ segment product_name sheet_name [py "What is X?"] = []
  /\ length (segment product_name sheet_name
               [py "Note: rates subject to change."; py "What is the rate?";
                py "5% APR."]) = 1.
Proof.
  intros Hq1 Hq2 Hlead. split; [|split; [|split; [|split]]].
  - rewrite segment_app. simpl. rewrite (seg_step_question _ _ _ q1 Hq1).
    apply save_pending_no_answer.
  - rewrite !segment_app. simpl.
    rewrite (seg_step_question _ _ _ q1 Hq1).
    rewrite !(seg_step_question _ _ _ q2 Hq2).
    now rewrite save_pending_no_answer.
  - rewrite segment_app, (orphan_answers_skipped _ _ lead Hlead).
    reflexivity.
  - vm_compute. reflexivity.
  - vm_compute. reflexivity.
Qed.

(** C5. The two questions of the "Savings" scenario, each followed by its
    answer line, give exactly the two pairs, in the order of the rows; and
    so does the sheet "Savings" that holds the title "Savings Account" in
    its first row and the four texts in the rows below. *)
Theorem savings_scenario_two_pairs :
  let expected :=
    [mkQA (py "What is the minimum balance?")
          (py "PKR 5,000 for savings accounts.")
          (py "Savings Account") (py "Savings");
     mkQA (py "How do I open an account?")
          (py "Visit any branch with your CNIC.")
          (py "Savings Account") (py "Savings")] in
  segment (py "Savings Account") (py "Savings")
    [py "What is the minimum balance?"; py "PKR 5,000 for savings accounts.";
     py "How do I open an account?"; py "Visit any branch with your CNIC."]
  = expected
  /\ extract_qa_from_sheet
       [[VStr (py "Savings Account"); VNone];
        [VStr (py "What is the minimum balance?"); VNone];
        [VStr (py "PKR 5,000 for savings accounts."); VNone];
        [VStr (py "How do I open an account?"); VNone];
        [VStr (py "Visit any branch with your CNIC."); VNone]]
       (py "Savings")
     = expected.
Proof. split; vm_compute; reflexivity. Qed.

(** ** The question heuristic *)

Lemma startswith_spec (s prefix : str) :
  startswith s prefix = true <-> exists rest, s = prefix ++ rest.
Proof.
  revert s. induction prefix as [|p prefix IH]; intros s; simpl.
  - split; [intros _; now exists s | reflexivity].
  - destruct s as [|c s].
    + split; [discriminate | intros [rest H]; discriminate H].
    + rewrite andb_true_iff, N.eqb_eq, IH. split.
      * intros [-> [rest ->]]. now exists rest.
      * intros [rest [= -> ->]]. split; [reflexivity | now exists rest].
Qed.

Lemma endswith_spec (s suffix : str) :
  endswith s suffix = true <-> exists pre, s = pre ++ suffix.
Proof.
  unfold endswith. rewrite startswith_spec. split.
  - intros [rest H]. exists (rev rest).
    rewrite <- (rev_involutive s), H, rev_app_distr.
    now rewrite rev_involutive.
  - intros [pre ->]. exists (rev pre). apply rev_app_distr.
Qed.

Lemma contains_spec (s : str) (c : char) :
  contains s c = true <-> In c s.
Proof.
  unfold contains. rewrite existsb_exists. split.
  - intros [d [Hd E]]. apply N.eqb_eq in E. now subst d.
  - intros H. exists c. split; [exact H | apply N.eqb_refl].
Qed.

Lemma In_firstn (n : nat) (s : str) (c : char) :
  In c (firstn n s) <-> exists i, i < n /\ nth_error s i = Some c.
Proof.
  revert s. induction n as [|n IH]; intros s.
  - simpl. split; [tauto | intros [i [Hi _]]; lia].
  - destruct s as [|d s]; simpl.
    + split; [tauto | intros [[|i] [_ H]]; discriminate H].
    + rewrite IH. split.
      * intros [->|[i [Hi H]]]; [exists 0 | exists (S i)];
          (split; [lia | assumption || reflexivity]).
      * intros [[|i] [Hi H]]; [left; now injection H | right].
        exists i. split; [lia | exact H].
Qed.

Lemma lower_nil : lower [] = [].
Proof. reflexivity. Qed.

(** C2. [is_question] answers [True] exactly when the trimmed text ends with
    a question mark, or its lowercase form starts with one of the phrases of
    [q_starts], or a question mark stands among its first 80 characters; a
    text that is empty after trimming is not a question. *)
Theorem is_question_iff (text : str) :
  let t := strip text in
  (is_question text = true <->
     (exists pre, t = pre ++ [QMARK])
     \/ (exists qs rest, In qs q_starts /\ lower t = qs ++ rest)
     \/ (exists i, i < 80 /\ nth_error t i = Some QMARK))
  /\ (t = [] -> is_question text = false).
Proof.
  intros t.
  assert (Hnil : t = [] -> is_question text = false).
  { intros E. unfold is_question. fold t. now rewrite E. }
  split; [|exact Hnil].
  rewrite <- endswith_spec, <- In_firstn, <- contains_spec.
  assert (Hstarts :
            existsb (fun qs => startswith (lower t) qs) q_starts = true
            <-> exists qs rest, In qs q_starts /\ lower t = qs ++ rest).
  { rewrite existsb_exists. split.
    - intros [qs [Hin H]]. apply startswith_spec in H.
      destruct H as [rest H]. now exists qs, rest.
    - intros [qs [rest [Hin H]]]. exists qs. split; [exact Hin|].
      apply startswith_spec. now exists rest. }
  rewrite <- Hstarts. clear Hstarts.
  destruct t as [|c t'] eqn:Et.
  - rewrite (Hnil eq_refl). split; [discriminate|].
    intros [H|[H|H]]; [discriminate H | | discriminate H].
    (* no phrase of [q_starts] is a prefix of the empty string *)
    rewrite lower_nil in H. exact H.
  - unfold is_question. fold t. rewrite Et. cbn [is_empty].
    destruct (endswith (c :: t') [QMARK]); [tauto|].
    destruct (existsb (fun qs => startswith (lower (c :: t')) qs) q_starts);
      [tauto|].
    destruct (contains (firstn 80 (c :: t')) QMARK); [tauto|].
    split; [discriminate | intros [H|[H|H]]; discriminate H].
Qed.

(** ** The flattener *)

Lemma row_texts_step_survives (row_texts : list str) (cell : cell_value) :
  row_texts_step row_texts cell
  = row_texts ++ surviving_texts [cell].
Proof.
  unfold row_texts_step, surviving_texts, cell_texts.
  destruct cell as [|s|b r];
    cbn [value_is_none value_str flat_map app filter];
    [now rewrite app_nil_r | |].
  - unfold survives.
    destruct (startswith (strip s) [EQUALS]),
             (str_eqb (lower (strip s)) MAIN_MARKER),
             (is_empty (strip s)); cbn [negb andb orb];
      now rewrite ?app_nil_r.
  - unfold survives.
    destruct (startswith (strip r) [EQUALS]),
             (str_eqb (lower (strip r)) MAIN_MARKER),
             (is_empty (strip r)); cbn [negb andb orb];
      now rewrite ?app_nil_r.
Qed.

Lemma surviving_texts_cons (cell : cell_value) (row : list cell_value) :
  surviving_texts (cell :: row)
  = surviving_texts [cell] ++ surviving_texts row.
Proof.
  unfold surviving_texts, cell_texts. simpl.
  now rewrite app_nil_r, filter_app.
Qed.

Lemma collect_row_texts_from (row : list cell_value) (row_texts : list str) :
  fold_left row_texts_step row row_texts = row_texts ++ surviving_texts row.
Proof.
  revert row_texts. induction row as [|cell row IH]; intros row_texts.
  - simpl. now rewrite app_nil_r.
  - simpl. rewrite IH, row_texts_step_survives.
    rewrite (surviving_texts_cons cell row). now rewrite app_assoc.
Qed.

Lemma collect_row_texts_survivors (row : list cell_value) :
  collect_row_texts row = surviving_texts row.
Proof. apply collect_row_texts_from. Qed.

Lemma dict_set_fresh (d : dict) (k : N) (v : str) :
  Forall (fun e => (fst e < k)%N) d -> dict_set d k v = d ++ [(k, v)].
Proof.
  induction 1 as [|[k' v'] d Hk _ IH]; [reflexivity|].
  simpl in *. rewrite IH.
  replace (k' =? k)%N with false; [reflexivity|].
  symmetry. apply N.eqb_neq. lia.
Qed.

Lemma rows_data_step_unit (d : dict) (r : N * list cell_value) :
  Forall (fun e => (fst e < fst r)%N) d ->
  rows_data_step d r = d ++ row_unit r.
Proof.
  intros Hd. unfold rows_data_step, row_unit.
  rewrite collect_row_texts_survivors.
  destruct (surviving_texts (snd r)) as [|t [|t' ts]].
  - simpl. now rewrite app_nil_r.
  - simpl. now apply dict_set_fresh.
  - cbn [is_nil length hd]. now apply dict_set_fresh.
Qed.

Lemma row_unit_shape (r : N * list cell_value) :
  row_unit r = [] \/ exists text, row_unit r = [(fst r, text)].
Proof.
  unfold row_unit. destruct (surviving_texts (snd r)) as [|t [|t' ts]];
    [now left | right; eauto | right; eauto].
Qed.

Lemma collect_rows_data_from (rows : list (list cell_value)) (a : nat) (d : dict) :
  Forall (fun e => (fst e < N.of_nat a)%N) d ->
  fold_left rows_data_step
            (combine (map N.of_nat (seq a (length rows))) rows) d
  = d ++ flat_map row_unit (combine (map N.of_nat (seq a (length rows))) rows).
Proof.
  revert a d. induction rows as [|row rows IH]; intros a d Hd.
  - simpl. now rewrite app_nil_r.
  - simpl. rewrite (rows_data_step_unit d (N.of_nat a, row) Hd).
    rewrite IH; [now rewrite app_assoc|].
    apply Forall_app. split.
    + eapply Forall_impl; [|exact Hd]. simpl. intros e He. lia.
    + destruct (row_unit_shape (N.of_nat a, row)) as [->|[text ->]];
        repeat constructor. simpl. lia.
Qed.

Lemma ascending_from_weaken (lo lo' : N) (l : list (N * str)) :
  (lo' <= lo)%N -> ascending_from lo l -> ascending_from lo' l.
Proof.
  destruct l as [|x l]; simpl; [tauto|]. intros H [H1 H2]. split; [lia|exact H2].
Qed.

Lemma row_units_ascending (rows : list (list cell_value)) (a : nat) :
  ascending_from (N.of_nat a)
    (flat_map row_unit (combine (map N.of_nat (seq a (length rows))) rows)).
Proof.
  revert a. induction rows as [|row rows IH]; intros a; [exact I|].
  cbn [length seq map combine flat_map]. specialize (IH (S a)).
  destruct (row_unit_shape (N.of_nat a, row)) as [->|[text ->]];
    cbn [app ascending_from fst].
  - eapply ascending_from_weaken; [|exact IH]. lia.
  - split; [lia|]. eapply ascending_from_weaken; [|exact IH]. lia.
Qed.

Lemma sorted_ascending (lo : N) (l : list (N * str)) :
  ascending_from lo l -> sorted l = l.
Proof.
  revert lo. induction l as [|x l IH]; intros lo; [reflexivity|].
  simpl. intros [_ H]. unfold sorted in *. simpl. rewrite (IH _ H).
  destruct l as [|y l]; [reflexivity|].
  simpl in *. destruct H as [H _].
  replace (fst x <=? fst y)%N with true; [reflexivity|].
  symmetry. apply N.leb_le. lia.
Qed.

Lemma collect_rows_data_units (ws : worksheet) :
  collect_rows_data ws = flat_map row_unit (iter_rows ws).
Proof.
  unfold collect_rows_data, iter_rows.
  now rewrite (collect_rows_data_from ws 1 []).
Qed.

Lemma sorted_rows_units (ws : worksheet) :
  sorted (collect_rows_data ws) = flat_map row_unit (iter_rows ws).
Proof.
  rewrite collect_rows_data_units. unfold iter_rows.
  apply (sorted_ascending (N.of_nat 1)), row_units_ascending.
Qed.

(** C6. The flattener gives, in the order of the rows, one RowUnit for every
    row that keeps a cell after the empty cells, the formula references and
    the "main" markers are dropped: the one surviving text as it is, or the
    surviving texts from left to right joined with " | "; a row that keeps
    no cell gives no RowUnit. *)
Theorem flattener_row_units (ws : worksheet) :
  sorted (collect_rows_data ws) = flat_map row_unit (iter_rows ws).
Proof. exact (sorted_rows_units ws). Qed.

(** ** The product name *)

Lemma infer_product_name_first_row (ws : worksheet) (sheet_name : str) :
  infer_product_name ws sheet_name = scan_title_cells (hd [] ws) sheet_name.
Proof. unfold infer_product_name. destruct ws as [|row ws]; reflexivity. Qed.

Lemma scan_title_cells_regular (row : list cell_value) (sheet_name : str) :
  Forall regular_cell row ->
  scan_title_cells row sheet_name
  = match find survives (cell_texts row) with
    | Some text => text
    | None => sheet_name
    end.
Proof.
  induction 1 as [|cell row Hcell _ IH]; [reflexivity|].
  cbn [scan_title_cells]. rewrite IH.
  destruct cell as [|s|b r]; [reflexivity | |];
    unfold cell_texts; cbn [flat_map app find];
    simpl in Hcell; cbn [value_truthy value_str]; rewrite Hcell;
    unfold survives;
    destruct (is_empty (strip _)), (str_eqb (lower (strip _)) MAIN_MARKER),
             (startswith (strip _) [EQUALS]); reflexivity.
Qed.

(** On a first row of regular cells the product name is the one the
    specification describes. *)
Lemma infer_product_name_regular (ws : worksheet) (sheet_name : str) :
  Forall regular_cell (hd [] ws) ->
  infer_product_name ws sheet_name = spec_product_name ws sheet_name.
Proof.
  intros H. rewrite infer_product_name_first_row.
  now apply scan_title_cells_regular.
Qed.

(** C3. A first row that starts with a cell of whitespace only: the scan
    takes that cell and the product name is the empty string, where the
    first cell with a text that is not empty holds "Savings Account"; and a
    first row that starts with the number 0: the scan passes over the cell,
    whose text "0" is not empty. *)
Theorem product_name_of_blank_title_cell :
  infer_product_name [[VStr (py " "); VStr (py "Savings Account")]]
                     (py "Savings") = []
  /\ spec_product_name [[VStr (py " "); VStr (py "Savings Account")]]
                       (py "Savings") = py "Savings Account"
  /\ infer_product_name [[VOther false (py "0"); VStr (py "Savings Account")]]
                        (py "Savings") = py "Savings Account"
  /\ spec_product_name [[VOther false (py "0"); VStr (py "Savings Account")]]
                       (py "Savings") = py "0".
Proof. repeat split; vm_compute; reflexivity. Qed.

(** The sheet as the segmenter sees it: the RowUnits of the flattener,
    without the first one when its trimmed text is the trimmed product
    name. *)
Lemma extract_qa_from_sheet_units (ws : worksheet) (sheet_name : str) :
  extract_qa_from_sheet ws sheet_name
  = let product_name := infer_product_name ws sheet_name in
    let units := flat_map row_unit (iter_rows ws) in
    segment product_name sheet_name
      (map snd (match units with
                | (_, text) :: rest =>
                    if str_eqb (strip text) (strip product_name)
                    then rest else units
                | [] => []
                end)).
Proof.
  unfold extract_qa_from_sheet. cbv zeta.
  rewrite sorted_rows_units, collect_rows_data_units.
  destruct (flat_map row_unit (iter_rows ws)) as [|[k text] rest];
    [reflexivity|].
  cbn [is_nil start_idx].
  destruct (str_eqb (strip text) (strip (infer_product_name ws sheet_name)));
    reflexivity.
Qed.

(** ** The run over the workbook *)

Lemma str_eqb_eq (s t : str) : str_eqb s t = true <-> s = t.
Proof.
  revert t. induction s as [|c s IH]; intros [|d t]; simpl;
    try (split; [discriminate | discriminate]); [split; reflexivity|].
  rewrite andb_true_iff, N.eqb_eq, IH. split.
  - now intros [-> ->].
  - now intros [= -> ->].
Qed.

Lemma sheet_step_all_qa (st : main_state) (sh : str * worksheet) :
  all_qa (sheet_step st sh) = all_qa st ++ contribution sh.
Proof.
  unfold sheet_step, contribution.
  destruct (in_set (fst sh) SKIP_SHEETS); simpl; [now rewrite app_nil_r|].
  reflexivity.
Qed.

Lemma sheets_all_qa (wb : workbook) (st : main_state) :
  all_qa (fold_left sheet_step wb st) = all_qa st ++ flat_map contribution wb.
Proof.
  revert st. induction wb as [|sh wb IH]; intros st; simpl.
  - now rewrite app_nil_r.
  - now rewrite IH, sheet_step_all_qa, app_assoc.
Qed.

Lemma sheets_skipped (wb : workbook) (st : main_state) :
  skipped (fold_left sheet_step wb st)
  = skipped st
    ++ filter (fun name => in_set name SKIP_SHEETS) (map fst wb).
Proof.
  revert st. induction wb as [|sh wb IH]; intros st;
    cbn [fold_left map filter].
  - now rewrite app_nil_r.
  - rewrite IH. unfold sheet_step.
    destruct (in_set (fst sh) SKIP_SHEETS); cbn [skipped];
      [now rewrite <- app_assoc | reflexivity].
Qed.

(** C8. A sheet whose name is in [SKIP_SHEETS] adds no pair to [all_qa],
    whatever its cells hold: the step over it leaves [all_qa] as it was and
    only records the name, and the collection of the run is the one of the
    workbook without that sheet. *)
Theorem skipped_sheet_contributes_nothing
        (pre post : workbook) (sheet_name : str) (ws ws' : worksheet)
        (faq : option (list faq_category)) (st : main_state) :
  in_set sheet_name SKIP_SHEETS = true ->
  all_qa (sheet_step st (sheet_name, ws)) = all_qa st
  /\ length (all_qa (sheet_step st (sheet_name, ws))) - length (all_qa st) = 0
  /\ sheet_step st (sheet_name, ws) = sheet_step st (sheet_name, ws')
  /\ skipped (sheet_step st (sheet_name, ws)) = skipped st ++ [sheet_name]
  /\ collect_all_qa (pre ++ (sheet_name, ws) :: post) faq
     = collect_all_qa (pre ++ post) faq.
Proof.
  intros Hskip.
  assert (Hstep : forall w, sheet_step st (sheet_name, w)
                            = mkMain (all_qa st) (skipped st ++ [sheet_name])).
  { intros w. unfold sheet_step. cbn [fst snd]. now rewrite Hskip. }
  rewrite !Hstep. cbn [all_qa skipped]. rewrite Nat.sub_diag.
  repeat split.
  unfold collect_all_qa. rewrite !sheets_all_qa, !flat_map_app.
  cbn [flat_map]. unfold contribution at 2. cbn [fst]. now rewrite Hskip.
Qed.

(** ** The output files *)

Lemma fold_append_map {A B : Type} (f : A -> B) (l : list A) (acc : list B) :
  fold_left (fun out x => out ++ [f x]) l acc = acc ++ map f l.
Proof.
  revert acc. induction l as [|x l IH]; intros acc; simpl.
  - now rewrite app_nil_r.
  - now rewrite IH, <- app_assoc.
Qed.

Lemma write_instruct_map (qas : list QAPair) :
  write_instruct qas = map instruct_of qas.
Proof. unfold write_instruct. now rewrite (fold_append_map instruct_of). Qed.

Lemma write_chat_map (qas : list QAPair) :
  write_chat qas = map chat_of qas.
Proof. unfold write_chat. now rewrite (fold_append_map chat_of). Qed.

(** C9. The instruction file and the chat file hold one record for every
    pair of the dump, in the order of the dump: the [i]-th instruction
    record has the question as instruction, an empty input and the answer as
    output, and the [i]-th chat record has three messages, the system
    prompt, the question as the user and the answer as the assistant. *)
Theorem output_files_correspond
        (wb : workbook) (faq : option (list faq_category)) (i : nat) :
  let out := main wb faq in
  length (out_jsonl_instruct out) = length (out_json_all out)
  /\ length (out_jsonl_chat out) = length (out_json_all out)
  /\ nth_error (out_jsonl_instruct out) i
     = option_map (fun qa => mkInstruct (question qa) [] (answer qa) (product qa))
                  (nth_error (out_json_all out) i)
  /\ nth_error (out_jsonl_chat out) i
     = option_map (fun qa => mkChat [mkMessage system SYSTEM_PROMPT;
                                     mkMessage user (question qa);
                                     mkMessage assistant (answer qa)])
                  (nth_error (out_json_all out) i).
Proof.
  intros out. unfold out, main. simpl.
  rewrite write_instruct_map, write_chat_map.
  rewrite !length_map, !nth_error_map. repeat split.
Qed.

(** ** The pairs of the run *)

Lemma merge_faq_pairs (acc : list QAPair) (faq : option (list faq_category)) :
  merge_faq acc faq = acc ++ faq_pairs faq.
Proof.
  destruct faq as [categories|]; simpl; [|now rewrite app_nil_r].
  revert acc. induction categories as [|cat categories IH]; intros acc; simpl.
  - now rewrite app_nil_r.
  - rewrite IH. unfold faq_category_step. cbv zeta.
    now rewrite (fold_append_map (faq_pair (category_name cat))), app_assoc.
Qed.

Lemma collect_all_qa_parts (wb : workbook) (faq : option (list faq_category)) :
  collect_all_qa wb faq = flat_map contribution wb ++ faq_pairs faq.
Proof.
  unfold collect_all_qa. now rewrite merge_faq_pairs, sheets_all_qa.
Qed.

Lemma extract_well_formed (ws : worksheet) (sheet_name : str) :
  Forall (well_formed_pair (infer_product_name ws sheet_name) sheet_name)
         (extract_qa_from_sheet ws sheet_name).
Proof.
  unfold extract_qa_from_sheet. cbv zeta.
  destruct (is_nil (collect_rows_data ws)); [constructor|].
  apply segment_well_formed.
Qed.

Lemma scan_title_cells_nonempty (row : list cell_value) (sheet_name : str) :
  sheet_name <> [] -> Forall titled_cell row ->
  scan_title_cells row sheet_name <> [].
Proof.
  intros Hname. induction 1 as [|cell row Hcell _ IH]; [exact Hname|].
  cbn [scan_title_cells].
  destruct (value_truthy cell) eqn:E; cbn [andb]; [|exact IH].
  destruct (negb (str_eqb (lower (strip (value_str cell))) MAIN_MARKER));
    [|exact IH].
  destruct (negb (startswith (strip (value_str cell)) [EQUALS])); [|exact IH].
  now apply Hcell.
Qed.

(** C1 (amended). A pair of the run comes from a sheet that is not skipped
    or from the FAQ merge.  A pair from a sheet has a question and an answer
    that are normalized and not empty, the name of its sheet as [sheet],
    which is not empty (sheet names are not), and the inferred product name
    as [product], which is not empty when no cell of the first row is
    taken with an empty text.  A pair from the FAQ merge has the normalized
    fields of its FAQ entry as question and answer, and a product and a
    sheet that are not empty. *)
Theorem all_qa_pairs_fields
        (wb : workbook) (faq : option (list faq_category)) (qa : QAPair) :
  (forall sh, In sh wb -> fst sh <> []) ->
  In qa (collect_all_qa wb faq) ->
  sheet_pair wb qa \/ faq_merge_pair faq qa.
Proof.
  intros Hnames Hin. rewrite collect_all_qa_parts in Hin.
  apply in_app_or in Hin. destruct Hin as [Hin|Hin].
  - left. apply in_flat_map in Hin. destruct Hin as [sh [Hsh Hin]].
    exists sh. unfold contribution in Hin.
    destruct (in_set (fst sh) SKIP_SHEETS) eqn:Eskip; [destruct Hin|].
    pose proof (extract_well_formed (snd sh) (fst sh)) as Hwf.
    rewrite Forall_forall in Hwf.
    destruct (Hwf qa Hin) as (Hq & Hqn & Ha & Han & Hp & Hs).
    pose proof (Hnames sh Hsh) as Hname.
    repeat (split; [assumption || congruence|]).
    intros Htitle. rewrite Hp, infer_product_name_first_row.
    now apply scan_title_cells_nonempty.
  - right. unfold faq_pairs in Hin.
    destruct faq as [categories|]; [|destruct Hin].
    apply in_flat_map in Hin. destruct Hin as [cat [Hcat Hin]].
    apply in_map_iff in Hin. destruct Hin as [q [<- Hq]].
    exists categories, cat, q.
    repeat split; try assumption; discriminate.
Qed.

(** * Further properties of the code *)

(** ** [clean_text] *)

Lemma visible_app (s t : str) : visible (s ++ t) = visible s ++ visible t.
Proof. apply filter_app. Qed.

Lemma visible_whitespace (s : str) :
  Forall (fun c => isspace c = true) s -> visible s = [].
Proof.
  induction 1 as [|c s Hc _ IH]; [reflexivity|].
  unfold visible in *. simpl. now rewrite Hc.
Qed.

Lemma visible_nil_whitespace (s : str) :
  visible s = [] -> Forall (fun c => isspace c = true) s.
Proof.
  induction s as [|c s IH]; [constructor|].
  unfold visible in *. simpl. destruct (isspace c) eqn:E; simpl.
  - intros H. constructor; [exact E | now apply IH].
  - discriminate.
Qed.

Lemma visible_strip (s : str) : visible (strip s) = visible s.
Proof.
  destruct (strip_spec s) as (l & r & Hs & Hl & Hr & _).
  rewrite Hs at 2. rewrite !visible_app.
  now rewrite (visible_whitespace l Hl), (visible_whitespace r Hr), app_nil_r.
Qed.

Lemma visible_replace_tab (s : str) : visible (replace s TAB SPACE) = visible s.
Proof.
  induction s as [|c s IH]; [reflexivity|].
  unfold visible in *. simpl. rewrite IH.
  destruct (c =? TAB)%N eqn:E; [|reflexivity].
  apply N.eqb_eq in E. now subst c.
Qed.

Lemma visible_drop_while (p : char -> bool) (s : str) :
  (forall c, p c = true -> isspace c = true) ->
  visible (drop_while p s) = visible s.
Proof.
  intros Hp. rewrite <- (take_drop_while p s) at 2. rewrite visible_app.
  rewrite (visible_whitespace (take_while p s)); [reflexivity|].
  eapply Forall_impl; [|apply take_while_all]. exact Hp.
Qed.

Lemma space_not_newline_isspace (c : char) :
  space_not_newline c = true -> isspace c = true.
Proof. unfold space_not_newline. now intros H%andb_true_iff. Qed.

Lemma is_newline_isspace (c : char) : is_newline c = true -> isspace c = true.
Proof. intros H. now rewrite (is_newline_eq c H). Qed.

Lemma visible_sub_spaces (s : str) : visible (sub_spaces s) = visible s.
Proof.
  induction s as [s IH] using str_length_ind.
  destruct s as [|c s]; [reflexivity|].
  rewrite sub_spaces_cons. destruct (space_not_newline c) eqn:Hc.
  - change (visible (SPACE :: ?t)) with (visible t).
    rewrite IH by (simpl; pose proof (drop_while_length space_not_newline s);
                   lia).
    rewrite (visible_drop_while _ s space_not_newline_isspace).
    unfold visible. simpl.
    now rewrite (space_not_newline_isspace c Hc).
  - unfold visible in *. simpl. rewrite IH by (simpl; lia). reflexivity.
Qed.

Lemma visible_sub_newlines (s : str) : visible (sub_newlines s) = visible s.
Proof.
  induction s as [s IH] using str_length_ind.
  destruct s as [|c s]; [reflexivity|].
  rewrite sub_newlines_cons.
  destruct (is_newline c && (2 <=? length (take_while is_newline s))) eqn:E.
  - apply andb_true_iff in E. destruct E as [Hc _].
    change (visible (NL :: NL :: ?t)) with (visible t).
    rewrite IH by (simpl; pose proof (drop_while_length is_newline s); lia).
    rewrite (visible_drop_while _ s is_newline_isspace).
    unfold visible. simpl. now rewrite (is_newline_isspace c Hc).
  - unfold visible in *. simpl. rewrite IH by (simpl; lia). reflexivity.
Qed.

Lemma visible_clean_text (s : str) : visible (clean_text s) = visible s.
Proof.
  unfold clean_text. destruct s as [|c s]; [reflexivity|].
  cbn [is_empty]. cbv zeta.
  now rewrite visible_strip, visible_sub_newlines, visible_sub_spaces,
    visible_replace_tab, visible_strip.
Qed.

(** X1. [clean_text] only touches whitespace: the characters of the result
    that are not whitespace are those of the input, in the same order. *)
Theorem clean_text_keeps_visible_characters (s : str) :
  visible (clean_text s) = visible s.
Proof. exact (visible_clean_text s). Qed.

Lemma clean_text_nil_iff (s : str) :
  clean_text s = [] <-> Forall (fun c => isspace c = true) s.
Proof.
  split.
  - intros H. apply visible_nil_whitespace.
    now rewrite <- visible_clean_text, H.
  - intros H. apply visible_whitespace in H.
    rewrite <- visible_clean_text in H.
    destruct (clean_text_normal s) as (Hstart & _).
    destruct (clean_text s) as [|c t]; [reflexivity|].
    simpl in Hstart. unfold visible in H. simpl in H.
    rewrite Hstart in H. discriminate H.
Qed.

(** X2. [clean_text] gives the empty string exactly on the texts that hold
    nothing but whitespace (the empty text among them). *)
Theorem clean_text_empty_iff_blank (s : str) :
  clean_text s = [] <-> Forall (fun c => isspace c = true) s.
Proof. exact (clean_text_nil_iff s). Qed.

Lemma strip_length (s : str) :
  length (strip s) <= length s.
Proof.
  rewrite (strip_decompose s) at 2. rewrite !length_app. lia.
Qed.

Lemma sub_spaces_length (s : str) : length (sub_spaces s) <= length s.
Proof.
  induction s as [s IH] using str_length_ind.
  destruct s as [|c s]; [apply Nat.le_refl|].
  rewrite sub_spaces_cons. pose proof (drop_while_length space_not_newline s).
  destruct (space_not_newline c); simpl.
  - specialize (IH (drop_while space_not_newline s)). simpl in IH. lia.
  - specialize (IH s). simpl in IH. lia.
Qed.

Lemma sub_newlines_length (s : str) : length (sub_newlines s) <= length s.
Proof.
  induction s as [s IH] using str_length_ind.
  destruct s as [|c s]; [apply Nat.le_refl|].
  rewrite sub_newlines_cons. pose proof (drop_while_length is_newline s).
  destruct (is_newline c && (2 <=? length (take_while is_newline s))) eqn:E.
  - apply andb_true_iff in E. destruct E as [_ E]. apply Nat.leb_le in E.
    specialize (IH (drop_while is_newline s)).
    pose proof (f_equal (@length char) (take_drop_while is_newline s)) as Hl.
    rewrite length_app in Hl. simpl in *. lia.
  - specialize (IH s). simpl in *. lia.
Qed.

(** X3. [clean_text] never makes a text longer. *)
Theorem clean_text_never_longer (s : str) :
  length (clean_text s) <= length s.
Proof.
  unfold clean_text. destruct s as [|c s]; [apply Nat.le_refl|].
  cbn [is_empty]. cbv zeta.
  pose proof (strip_length (c :: s)) as H1.
  set (t := strip (c :: s)) in *.
  pose proof (sub_spaces_length (replace t TAB SPACE)) as H2.
  assert (Hr : length (replace t TAB SPACE) = length t) by apply length_map.
  pose proof (sub_newlines_length (sub_spaces (replace t TAB SPACE))) as H3.
  pose proof (strip_length
                (sub_newlines (sub_spaces (replace t TAB SPACE)))) as H4.
  lia.
Qed.

(** X4. What [clean_text] returns is trimmed, holds no tab and no
    whitespace other than single spaces and newlines, no two spaces in a
    row and no three newlines in a row. *)
Theorem clean_text_result_shape (s : str) :
  let t := clean_text s in
  strip t = t
  /\ (forall c, In c t -> isspace c = true -> c = SPACE \/ c = NL)
  /\ (In TAB t -> False)
  /\ (has_infix [SPACE; SPACE] t -> False)
  /\ (has_infix [NL; NL; NL] t -> False).
Proof.
  intros t. destruct (clean_text_normal s) as (H1 & H2 & Hplain & Hsp & Hnl).
  fold t in H1, H2, Hplain, Hsp, Hnl.
  rewrite Forall_forall in Hplain.
  split; [now apply strip_fixed|]. split; [|split; [|split; assumption]].
  - intros c Hin Hc. destruct (c =? NL)%N eqn:E.
    + right. now apply N.eqb_eq.
    + left. apply (Hplain c Hin). unfold space_not_newline.
      now rewrite Hc, E.
  - intros Hin. specialize (Hplain TAB Hin eq_refl). discriminate Hplain.
Qed.

(** ** The segmenter *)

Lemma classify_blank (text : str) :
  classify text = Blank -> is_empty (clean_text text) = true.
Proof.
  unfold classify. destruct (is_empty (clean_text text)); [reflexivity|].
  destruct (is_question (clean_text text)); discriminate.
Qed.

Lemma seg_step_blank (product_name sheet_name : str) (st : seg_state)
      (text : str) :
  classify text = Blank -> seg_step product_name sheet_name st text = st.
Proof. intros H%classify_blank. unfold seg_step. now rewrite H. Qed.

Lemma seg_step_answer (product_name sheet_name : str) (st : seg_state)
      (text : str) :
  classify text = Answer -> pending (current_question st) = true ->
  seg_step product_name sheet_name st text
  = mkSeg (qa_pairs st) (current_question st)
          (current_answer_parts st ++ [clean_text text]).
Proof.
  intros H Hp. apply classify_answer in H. destruct H as [E1 E2].
  unfold seg_step. now rewrite E1, E2, Hp.
Qed.

(** X5. A row whose text is empty after normalization changes nothing: the
    output is the one of the rows without it. *)
Theorem blank_rows_ignored
        (product_name sheet_name : str) (pre rest : list str) (text : str) :
  classify text = Blank ->
  segment product_name sheet_name (pre ++ text :: rest)
  = segment product_name sheet_name (pre ++ rest).
Proof.
  intros H. rewrite !segment_app. simpl.
  now rewrite (seg_step_blank _ _ _ text H).
Qed.

Lemma save_pending_frame (product_name sheet_name : str)
      (saved pairs : list QAPair) (q : option str) (parts : list str) :
  save_pending product_name sheet_name (mkSeg (saved ++ pairs) q parts)
  = saved ++ save_pending product_name sheet_name (mkSeg pairs q parts).
Proof.
  unfold save_pending. cbn [qa_pairs current_question current_answer_parts].
  destruct (pending q && negb (is_nil parts)); [|reflexivity].
  destruct (negb (is_empty (clean_text (join [NL] parts))));
    [now rewrite app_assoc | reflexivity].
Qed.

Lemma seg_step_frame (product_name sheet_name : str)
      (saved pairs : list QAPair) (q : option str) (parts : list str)
      (text : str) :
  seg_step product_name sheet_name (mkSeg (saved ++ pairs) q parts) text
  = let st := seg_step product_name sheet_name (mkSeg pairs q parts) text in
    mkSeg (saved ++ qa_pairs st) (current_question st)
          (current_answer_parts st).
Proof.
  unfold seg_step. cbv zeta.
  destruct (is_empty (clean_text text)); [reflexivity|].
  destruct (is_question (clean_text text)).
  - now rewrite save_pending_frame.
  - cbn [qa_pairs current_question current_answer_parts].
    destruct (pending q); reflexivity.
Qed.

Lemma seg_run_frame (product_name sheet_name : str) (texts : list str)
      (saved pairs : list QAPair) (q : option str) (parts : list str) :
  fold_left (seg_step product_name sheet_name) texts
            (mkSeg (saved ++ pairs) q parts)
  = let st := fold_left (seg_step product_name sheet_name) texts
                        (mkSeg pairs q parts) in
    mkSeg (saved ++ qa_pairs st) (current_question st)
          (current_answer_parts st).
Proof.
  revert pairs q parts. induction texts as [|t texts IH]; intros pairs q parts.
  - reflexivity.
  - cbn [fold_left]. rewrite seg_step_frame. cbv zeta.
    destruct (seg_step product_name sheet_name (mkSeg pairs q parts) t)
      as [pairs' q' parts'].
    cbn [qa_pairs current_question current_answer_parts]. apply IH.
Qed.

Lemma seg_run_answers (product_name sheet_name : str) (answers : list str)
      (pairs : list QAPair) (q : option str) (parts : list str) :
  Forall (fun text => classify text = Answer) answers ->
  pending q = true ->
  fold_left (seg_step product_name sheet_name) answers (mkSeg pairs q parts)
  = mkSeg pairs q (parts ++ map clean_text answers).
Proof.
  intros Ha Hq. revert parts.
  induction Ha as [|a answers Ha _ IH]; intros parts.
  - simpl. now rewrite app_nil_r.
  - cbn [fold_left map].
    rewrite (seg_step_answer _ _ (mkSeg pairs q parts) a Ha Hq).
    cbn [qa_pairs current_question current_answer_parts].
    rewrite IH. now rewrite <- app_assoc.
Qed.

Lemma clean_text_starts_outside (s : str) :
  starts_outside isspace (clean_text s).
Proof. exact (proj1 (clean_text_normal s)). Qed.

Lemma join_head (sep : str) (p : str) (parts : list str) (c : char) (t : str) :
  p = c :: t -> exists t', join sep (p :: parts) = c :: t'.
Proof.
  intros ->. destruct parts as [|p' parts]; simpl; eauto.
Qed.

Lemma answer_not_empty (answers : list str) :
  answers <> [] ->
  Forall (fun text => classify text = Answer) answers ->
  is_empty (clean_text (join [NL] (map clean_text answers))) = false.
Proof.
  intros Hne Ha. destruct Ha as [|a answers Ha _]; [congruence|].
  apply classify_answer in Ha. destruct Ha as [Ea _].
  pose proof (clean_text_starts_outside a) as Hs.
  destruct (clean_text a) as [|c t] eqn:E; [discriminate Ea|].
  simpl in Hs.
  destruct (join_head [NL] (c :: t) (map clean_text answers) c t eq_refl)
    as [t' Hj].
  cbn [map]. rewrite E, Hj.
  destruct (clean_text (c :: t')) eqn:E'; [|reflexivity].
  apply clean_text_nil_iff in E'. inversion E' as [|? ? Hc _]; subst.
  congruence.
Qed.

(** X6. A question row followed by one or more answer rows, up to the next
    question row or the end of the rows, gives one pair: the normalized
    question with the normalized answer lines joined by newlines; the pairs
    of the rows after it follow. *)
Theorem segment_question_block
        (product_name sheet_name : str) (q : str) (answers rest : list str) :
  classify q = Question ->
  answers <> [] ->
  Forall (fun text => classify text = Answer) answers ->
  starts_with_question rest ->
  segment product_name sheet_name (q :: answers ++ rest)
  = mkQA (clean_text q) (clean_text (join [NL] (map clean_text answers)))
         product_name sheet_name
    :: segment product_name sheet_name rest.
Proof.
  intros Hq Hne Ha Hrest.
  pose proof (classify_question q Hq) as [Eq _].
  assert (Hp : pending (Some (clean_text q)) = true).
  { destruct (clean_text q); [discriminate Eq | reflexivity]. }
  pose proof (answer_not_empty answers Hne Ha) as Hans.
  assert (Hparts : is_nil (map clean_text answers) = false).
  { destruct answers; [congruence | reflexivity]. }
  assert (Hsave : forall pairs,
             save_pending product_name sheet_name
               (mkSeg pairs (Some (clean_text q)) (map clean_text answers))
             = pairs ++ [mkQA (clean_text q)
                              (clean_text (join [NL] (map clean_text answers)))
                              product_name sheet_name]).
  { intros pairs. unfold save_pending.
    cbn [qa_pairs current_question current_answer_parts].
    now rewrite Hp, Hparts, Hans, clean_text_idempotent. }
  unfold segment. cbn [fold_left].
  rewrite (seg_step_question _ _ _ q Hq), fold_left_app.
  change (save_pending product_name sheet_name seg_init) with (@nil QAPair).
  rewrite (seg_run_answers _ _ answers [] _ [] Ha Hp). cbn [app].
  destruct rest as [|r rest].
  - cbn [fold_left]. now rewrite Hsave.
  - cbn [fold_left]. simpl in Hrest.
    rewrite !(seg_step_question _ _ _ r Hrest), Hsave.
    change (save_pending product_name sheet_name seg_init) with (@nil QAPair).
    cbn [app].
    set (pair := mkQA (clean_text q)
                      (clean_text (join [NL] (map clean_text answers)))
                      product_name sheet_name).
    pose proof (seg_run_frame product_name sheet_name rest [pair] []
                  (Some (clean_text r)) []) as Hf.
    cbn [app] in Hf. rewrite Hf. cbv zeta.
    destruct (fold_left (seg_step product_name sheet_name) rest
                        (mkSeg [] (Some (clean_text r)) []))
      as [pairs' q' parts'].
    cbn [qa_pairs current_question current_answer_parts].
    exact (save_pending_frame _ _ [pair] pairs' q' parts').
Qed.

Lemma save_pending_weight (product_name sheet_name : str) (st : seg_state) :
  2 * length (save_pending product_name sheet_name st) <= seg_weight st.
Proof.
  unfold save_pending, seg_weight.
  destruct (pending (current_question st)); cbn [andb]; [|lia].
  destruct (is_nil (current_answer_parts st)); cbn [negb]; [lia|].
  destruct (negb (is_empty _)); [rewrite length_app; simpl; lia | lia].
Qed.

Lemma seg_step_weight (product_name sheet_name : str) (st : seg_state)
      (text : str) :
  seg_weight (seg_step product_name sheet_name st text) <= S (seg_weight st).
Proof.
  unfold seg_step.
  destruct (is_empty (clean_text text)) eqn:E; [lia|].
  destruct (is_question (clean_text text)).
  - pose proof (save_pending_weight product_name sheet_name st).
    unfold seg_weight at 1.
    cbn [qa_pairs current_question current_answer_parts is_nil].
    destruct (clean_text text); [discriminate E|]. cbn [pending]. lia.
  - destruct (pending (current_question st)) eqn:Hp; [|lia].
    unfold seg_weight.
    cbn [qa_pairs current_question current_answer_parts]. rewrite Hp.
    destruct (current_answer_parts st); cbn [app is_nil]; lia.
Qed.

Lemma seg_run_weight (product_name sheet_name : str) (texts : list str)
      (st : seg_state) :
  seg_weight (fold_left (seg_step product_name sheet_name) texts st)
  <= length texts + seg_weight st.
Proof.
  revert st. induction texts as [|t texts IH]; intros st; [simpl; lia|].
  cbn [fold_left length]. specialize (IH (seg_step product_name sheet_name st t)).
  pose proof (seg_step_weight product_name sheet_name st t). lia.
Qed.

Lemma segment_half (product_name sheet_name : str) (texts : list str) :
  2 * length (segment product_name sheet_name texts) <= length texts.
Proof.
  unfold segment.
  pose proof (save_pending_weight product_name sheet_name
                (fold_left (seg_step product_name sheet_name) texts seg_init)).
  pose proof (seg_run_weight product_name sheet_name texts seg_init).
  change (seg_weight seg_init) with 0 in *. lia.
Qed.

(** X7. Every pair takes a question row and at least one answer row: the
    segmenter gives at most half as many pairs as it reads rows. *)
Theorem segment_at_most_half_the_rows
        (product_name sheet_name : str) (texts : list str) :
  2 * length (segment product_name sheet_name texts) <= length texts.
Proof. exact (segment_half product_name sheet_name texts). Qed.

(** ** The flattener and the sheet *)

Lemma starts_outside_app (p : char -> bool) (a b : str) :
  a <> [] -> starts_outside p a -> starts_outside p (a ++ b).
Proof. destruct a as [|c a]; [congruence | intros _ H; exact H]. Qed.

Lemma is_empty_true_nil (s : str) : is_empty s = true -> s = [].
Proof. destruct s; [reflexivity | discriminate]. Qed.

Lemma strip_trimmed (s : str) : strip s <> [] -> trimmed_text (strip s).
Proof.
  intros Hne. destruct (strip_spec s) as (l & r & _ & _ & _ & H1 & H2).
  now repeat split.
Qed.

Lemma trimmed_text_fixed (t : str) :
  trimmed_text t -> strip t = t /\ clean_text t <> [].
Proof.
  intros (Hne & H1 & H2). split; [now apply strip_fixed|].
  intros E. apply clean_text_nil_iff in E.
  destruct t as [|c t]; [congruence|].
  inversion E as [|? ? Hc _]; subst. simpl in H1. congruence.
Qed.

Lemma surviving_texts_trimmed (row : list cell_value) :
  Forall trimmed_text (surviving_texts row).
Proof.
  apply Forall_forall. intros t Ht. unfold surviving_texts in Ht.
  apply filter_In in Ht. destruct Ht as [Hin Hs].
  unfold cell_texts in Hin. apply in_flat_map in Hin.
  destruct Hin as [cell [_ Hin]].
  assert (Ht : t = strip (value_str cell)).
  { destruct cell; simpl in Hin; [destruct Hin | |];
      destruct Hin as [<-|[]]; reflexivity. }
  subst t. apply strip_trimmed.
  unfold survives in Hs. apply andb_true_iff in Hs. destruct Hs as [Hs _].
  apply andb_true_iff in Hs. destruct Hs as [Hs _].
  destruct (strip (value_str cell)); [discriminate Hs | discriminate].
Qed.

Lemma join_trimmed (sep : str) (texts : list str) :
  texts <> [] -> Forall trimmed_text texts -> trimmed_text (join sep texts).
Proof.
  intros Hne Hall. induction Hall as [|p texts Hp Hall IH]; [congruence|].
  destruct texts as [|p' texts]; [exact Hp|].
  assert (IH' : trimmed_text (join sep (p' :: texts)))
    by (apply IH; discriminate).
  clear IH. destruct Hp as (Hp & Hp1 & Hp2).
  destruct IH' as (Hj & _ & Hj2).
  change (join sep (p :: p' :: texts))
    with (p ++ sep ++ join sep (p' :: texts)).
  repeat split.
  - destruct p; [congruence | discriminate].
  - now apply starts_outside_app.
  - rewrite !rev_app_distr, <- app_assoc. apply starts_outside_app; [|exact Hj2].
    intros E. apply (f_equal (@rev char)) in E.
    rewrite rev_involutive in E. exact (Hj E).
Qed.

Lemma row_unit_trimmed (r : N * list cell_value) :
  Forall (fun e => fst e = fst r /\ trimmed_text (snd e)) (row_unit r).
Proof.
  unfold row_unit. pose proof (surviving_texts_trimmed (snd r)) as H.
  destruct (surviving_texts (snd r)) as [|t [|t' ts]].
  - constructor.
  - constructor; [|constructor]. inversion H; subst. now split.
  - constructor; [|constructor]. split; [reflexivity|].
    apply join_trimmed; [discriminate | exact H].
Qed.

Lemma iter_rows_numbers (ws : worksheet) (r : N * list cell_value) :
  In r (iter_rows ws) -> (1 <= fst r <= N.of_nat (length ws))%N.
Proof.
  destruct r as [k row]. unfold iter_rows. intros H.
  apply in_combine_l, in_map_iff in H. destruct H as [n [<- H]].
  apply in_seq in H. simpl. lia.
Qed.

(** X8. The RowUnits of a sheet are in strictly ascending row order, with
    row numbers of the sheet; the text of each is trimmed and not empty,
    and is not empty after normalization either, so that the segmenter
    skips none of them as a blank row. *)
Theorem row_units_numbered_and_trimmed (ws : worksheet) :
  let units := sorted (collect_rows_data ws) in
  ascending_from 1 units
  /\ Forall (fun e => (1 <= fst e <= N.of_nat (length ws))%N
                      /\ snd e <> []
                      /\ strip (snd e) = snd e
                      /\ (classify (snd e) = Blank -> False)) units.
Proof.
  intros units. unfold units. rewrite sorted_rows_units.
  split; [apply (row_units_ascending ws 1)|].
  apply Forall_forall. intros e He. apply in_flat_map in He.
  destruct He as [r [Hr He]].
  pose proof (row_unit_trimmed r) as Ht. rewrite Forall_forall in Ht.
  destruct (Ht e He) as [Hk Htr].
  destruct (trimmed_text_fixed (snd e) Htr) as [Hfix Hclean].
  pose proof (iter_rows_numbers ws r Hr) as Hn. rewrite <- Hk in Hn.
  split; [exact Hn|].
  split; [exact (proj1 Htr)|]. split; [exact Hfix|].
  intros Hb. apply classify_blank, is_empty_true_nil in Hb. congruence.
Qed.

Lemma row_units_length (rows : list (N * list cell_value)) :
  length (flat_map row_unit rows) <= length rows.
Proof.
  induction rows as [|r rows IH]; [apply Nat.le_refl|].
  cbn [flat_map]. rewrite length_app.
  destruct (row_unit_shape r) as [->|[text ->]]; simpl; lia.
Qed.

(** X9. A sheet gives at most half as many pairs as it has rows with a
    surviving cell, which are at most the rows of the sheet: a sheet of no
    row or one row gives no pair. *)
Theorem sheet_pairs_at_most_half_the_rows (ws : worksheet) (sheet_name : str) :
  2 * length (extract_qa_from_sheet ws sheet_name)
  <= length (sorted (collect_rows_data ws))
  /\ length (sorted (collect_rows_data ws)) <= length ws.
Proof.
  rewrite extract_qa_from_sheet_units, sorted_rows_units. cbv zeta.
  assert (Hrows : length (iter_rows ws) = length ws).
  { unfold iter_rows. rewrite length_combine, length_map, length_seq. lia. }
  pose proof (row_units_length (iter_rows ws)) as Hunits.
  split; [|lia].
  set (units := flat_map row_unit (iter_rows ws)) in *.
  match goal with
  | |- 2 * length (segment ?p ?n ?texts) <= _ =>
      pose proof (segment_half p n texts) as Hseg;
      assert (Htexts : length texts <= length units)
  end; [|lia].
  destruct units as [|[k text] rest]; [apply Nat.le_refl|].
  destruct (str_eqb (strip text) _); rewrite length_map; simpl; lia.
Qed.

Lemma scan_title_cells_provenance (row : list cell_value) (sheet_name : str) :
  scan_title_cells row sheet_name = sheet_name
  \/ exists cell,
       In cell row /\ value_truthy cell = true
       /\ scan_title_cells row sheet_name = strip (value_str cell)
       /\ startswith (strip (value_str cell)) [EQUALS] = false
       /\ str_eqb (lower (strip (value_str cell))) MAIN_MARKER = false.
Proof.
  induction row as [|cell row IH]; [now left|].
  cbn [scan_title_cells].
  destruct (value_truthy cell) eqn:Et; cbn [andb].
  - destruct (str_eqb (lower (strip (value_str cell))) MAIN_MARKER) eqn:Em;
      cbn [negb].
    + destruct IH as [IH|[c (Hin & H)]]; [now left | right].
      exists c. split; [now right | exact H].
    + destruct (startswith (strip (value_str cell)) [EQUALS]) eqn:Ef;
        cbn [negb].
      * destruct IH as [IH|[c (Hin & H)]]; [now left | right].
        exists c. split; [now right | exact H].
      * right. exists cell. repeat split; try assumption. now left.
  - destruct IH as [IH|[c (Hin & H)]]; [now left | right].
    exists c. split; [now right | exact H].
Qed.

(** X10. The inferred product name is the name of the sheet, or the trimmed
    text of a first-row cell with a true value, and then it is no formula
    reference and not the "main" marker. *)
Theorem product_name_provenance (ws : worksheet) (sheet_name : str) :
  let product_name := infer_product_name ws sheet_name in
  product_name = sheet_name
  \/ exists cell,
       In cell (hd [] ws) /\ value_truthy cell = true
       /\ product_name = strip (value_str cell)
       /\ strip product_name = product_name
       /\ startswith product_name [EQUALS] = false
       /\ str_eqb (lower product_name) MAIN_MARKER = false.
Proof.
  intros product_name. unfold product_name.
  rewrite infer_product_name_first_row.
  destruct (scan_title_cells_provenance (hd [] ws) sheet_name)
    as [H|[cell (Hin & Ht & -> & Hf & Hm)]]; [now left | right].
  exists cell. repeat split; try assumption. apply strip_idempotent.
Qed.

(** ** The run and its figures *)

(** X11. The collection of the run is, in the order of the workbook, the
    pairs of every sheet that is not skipped, one sheet after the other,
    and after them the pairs of the FAQ file, category by category and
    entry by entry. *)
Theorem all_qa_in_workbook_order
        (wb : workbook) (faq : option (list faq_category)) :
  collect_all_qa wb faq
  = flat_map (fun sh => extract_qa_from_sheet (snd sh) (fst sh))
             (processed_sheets wb)
    ++ match faq with
       | None => []
       | Some categories =>
           flat_map (fun cat => map (faq_pair (category_name cat))
                                    (questions cat)) categories
       end.
Proof.
  rewrite collect_all_qa_parts. f_equal.
  induction wb as [|sh wb IH]; [reflexivity|].
  cbn [flat_map processed_sheets filter]. unfold contribution at 1.
  fold (processed_sheets wb).
  destruct (in_set (fst sh) SKIP_SHEETS); cbn [negb flat_map app];
    now rewrite IH.
Qed.

(** X12. The sheets of a run are split in two: [skipped] holds, in the
    order of the workbook, the names that are in [SKIP_SHEETS], and the
    other sheets are the ones processed; no sheet is in both and none is
    lost. *)
Theorem skipped_and_processed_partition (wb : workbook) :
  let st := fold_left sheet_step wb (mkMain [] []) in
  skipped st = filter (fun name => in_set name SKIP_SHEETS) (map fst wb)
  /\ length (skipped st) + length (processed_sheets wb) = length wb
  /\ Forall (fun name => in_set name SKIP_SHEETS = true) (skipped st)
  /\ Forall (fun sh => in_set (fst sh) SKIP_SHEETS = false)
            (processed_sheets wb).
Proof.
  intros st. unfold st. rewrite sheets_skipped. cbn [skipped app].
  split; [reflexivity|]. split; [|split].
  - induction wb as [|sh wb IH]; [reflexivity|].
    cbn [map filter processed_sheets]. fold (processed_sheets wb).
    destruct (in_set (fst sh) SKIP_SHEETS); simpl in *; lia.
  - apply Forall_forall. intros name H. now apply filter_In in H.
  - apply Forall_forall. intros sh H. apply filter_In in H.
    destruct H as [_ H]. now apply negb_true_iff.
Qed.

Lemma faq_pairs_length (categories : list faq_category) :
  length (faq_pairs (Some categories)) = faq_count categories.
Proof.
  unfold faq_pairs, faq_count.
  induction categories as [|cat categories IH]; [reflexivity|].
  cbn [flat_map map list_sum]. now rewrite length_app, length_map, IH.
Qed.

(** X13. The totals that [main] prints agree: the collection after the
    sheets has as many pairs as the counts of the processed sheets add up
    to, and the FAQ merge adds the count printed for the FAQ file. *)
Theorem printed_totals_agree (wb : workbook) (categories : list faq_category) :
  length (collect_all_qa wb None)
  = list_sum (map (fun sh => length (extract_qa_from_sheet (snd sh) (fst sh)))
                  (processed_sheets wb))
  /\ length (collect_all_qa wb (Some categories))
     = length (collect_all_qa wb None) + faq_count categories.
Proof.
  rewrite !collect_all_qa_parts, !length_app, faq_pairs_length.
  cbn [faq_pairs length]. rewrite Nat.add_0_r. split; [|reflexivity].
  induction wb as [|sh wb IH]; [reflexivity|].
  cbn [flat_map processed_sheets filter]. fold (processed_sheets wb).
  rewrite length_app, IH. unfold contribution.
  destruct (in_set (fst sh) SKIP_SHEETS); reflexivity.
Qed.

Lemma str_eqb_refl (s : str) : str_eqb s s = true.
Proof. now apply str_eqb_eq. Qed.

Lemma str_eqb_neq (s t : str) : s <> t -> str_eqb s t = false.
Proof.
  intros H. destruct (str_eqb s t) eqn:E; [|reflexivity].
  apply str_eqb_eq in E. contradiction.
Qed.

Lemma counter_get_none (d : counter) (k : str) :
  counter_get d k = None -> ~ In k (map fst d).
Proof.
  induction d as [|[k' v] d IH]; simpl; [intros _ []|].
  destruct (str_eqb k' k) eqn:E; [discriminate|].
  intros H [Hk|Hin]; [|now apply IH].
  subst k'. now rewrite str_eqb_refl in E.
Qed.

Lemma NoDup_snoc (l : list str) (k : str) :
  NoDup l -> ~ In k l -> NoDup (l ++ [k]).
Proof.
  intros Hl Hk. apply NoDup_rev in Hl. rewrite <- (rev_involutive (l ++ [k])).
  apply NoDup_rev. rewrite rev_app_distr. simpl. constructor; [|exact Hl].
  now rewrite <- in_rev.
Qed.

(** One product counted: the key is there after [setdefault], so the
    increment finds it. *)
Lemma count_one (d : counter) (k : str) :
  exists d',
    add_one (setdefault d k 0) k = Some d'
    /\ counter_get d' k = Some (S (counter_value d k))
    /\ (forall k', k' <> k -> counter_get d' k' = counter_get d k')
    /\ list_sum (map snd d') = S (list_sum (map snd d))
    /\ map fst d' = match counter_get d k with
                    | Some _ => map fst d
                    | None => map fst d ++ [k]
                    end.
Proof.
  unfold counter_value. induction d as [|[k0 v0] d IH].
  - exists [(k, 1)]. cbn [setdefault add_one]. rewrite str_eqb_refl.
    repeat split; try reflexivity.
    + cbn [counter_get]. now rewrite str_eqb_refl.
    + intros k' Hk. cbn [counter_get]. rewrite str_eqb_neq; congruence.
  - cbn [setdefault counter_get]. destruct (str_eqb k0 k) eqn:E.
    + exists ((k0, v0 + 1) :: d). cbn [add_one]. rewrite E.
      repeat split; try reflexivity.
      * cbn [counter_get]. rewrite E. now rewrite Nat.add_1_r.
      * intros k' Hk. cbn [counter_get]. apply str_eqb_eq in E. subst k0.
        rewrite str_eqb_neq; congruence.
      * simpl. lia.
    + destruct IH as (d' & Hadd & Hget & Hother & Hsum & Hkeys).
      exists ((k0, v0) :: d'). cbn [add_one]. rewrite E, Hadd.
      repeat split; try reflexivity.
      * cbn [counter_get]. now rewrite E.
      * intros k' Hk. cbn [counter_get]. now rewrite (Hother k' Hk).
      * simpl. lia.
      * cbn [map fst]. rewrite Hkeys.
        destruct (counter_get d k); reflexivity.
Qed.

Lemma product_count_cons (qa : QAPair) (qas : list QAPair) (p : str) :
  product_count (qa :: qas) p
  = (if str_eqb (product qa) p then 1 else 0) + product_count qas p.
Proof.
  unfold product_count. cbn [filter].
  destruct (str_eqb (product qa) p); reflexivity.
Qed.

Lemma product_counts_from (qas : list QAPair) (d0 : counter) :
  exists d,
    fold_left count_step qas (Some d0) = Some d
    /\ (forall p, counter_value d p = counter_value d0 p + product_count qas p)
    /\ (forall p, counter_get d p = None
                  <-> counter_get d0 p = None /\ product_count qas p = 0)
    /\ list_sum (map snd d) = list_sum (map snd d0) + length qas
    /\ (NoDup (map fst d0) -> NoDup (map fst d)).
Proof.
  revert d0. induction qas as [|qa qas IH]; intros d0.
  - exists d0. cbn [fold_left].
    assert (Hc : forall p, product_count [] p = 0) by reflexivity.
    split; [reflexivity|]. split; [intros p; rewrite Hc; lia|].
    split; [|split; [simpl; lia | auto]].
    intros p. rewrite Hc. split; [intros H; now split | intros [H _]; exact H].
  - destruct (count_one d0 (product qa))
      as (d1 & Hadd & Hget & Hother & Hsum & Hkeys).
    destruct (IH d1) as (d & Hrun & Hval & Hnone & Htot & Hnodup).
    exists d. cbn [fold_left count_step]. rewrite Hadd.
    split; [exact Hrun|]. split; [|split; [|split]].
    + intros p. rewrite Hval, product_count_cons. unfold counter_value at 1.
      destruct (str_eqb (product qa) p) eqn:E.
      * apply str_eqb_eq in E. subst p. rewrite Hget. lia.
      * assert (Hp : p <> product qa)
          by (intros ->; now rewrite str_eqb_refl in E).
        rewrite (Hother p Hp). unfold counter_value. lia.
    + intros p. rewrite Hnone, product_count_cons.
      destruct (str_eqb (product qa) p) eqn:E.
      * apply str_eqb_eq in E. subst p. rewrite Hget.
        split; [intros [H _]; discriminate H | intros [_ H]; discriminate H].
      * assert (Hp : p <> product qa)
          by (intros ->; now rewrite str_eqb_refl in E).
        rewrite (Hother p Hp). simpl.
        split; intros [H1 H2]; now split.
    + rewrite Htot, Hsum. simpl. lia.
    + intros Hd0. apply Hnodup. rewrite Hkeys.
      destruct (counter_get d0 (product qa)) eqn:Eg; [exact Hd0|].
      apply NoDup_snoc; [exact Hd0 | now apply counter_get_none].
Qed.

(** X14. The loop that counts the pairs of every product never meets a
    missing key, and the table it leaves holds every product of the
    collection once, with the number of its pairs, and no other product;
    its counts add up to the number of pairs. *)
Theorem product_counts_table (qas : list QAPair) :
  exists d,
    product_counts qas = Some d
    /\ NoDup (map fst d)
    /\ (forall p, counter_get d p
                  = if product_count qas p =? 0 then None
                    else Some (product_count qas p))
    /\ list_sum (map snd d) = length qas.
Proof.
  destruct (product_counts_from qas [])
    as (d & Hrun & Hval & Hnone & Htot & Hnodup).
  exists d. split; [exact Hrun|]. split; [apply Hnodup; constructor|].
  split; [|exact Htot].
  intros p. specialize (Hval p). specialize (Hnone p).
  unfold counter_value in Hval. cbn [counter_get] in Hval, Hnone.
  destruct (product_count qas p =? 0) eqn:E.
  - apply Nat.eqb_eq in E. now apply Hnone.
  - apply Nat.eqb_neq in E.
    destruct (counter_get d p) as [v|]; [now rewrite Hval|].
    destruct Hnone as [Hnone _]. destruct (Hnone eq_refl) as [_ H]. lia.
Qed.

Lemma insert_by_count_perm (x : str * nat) (l : counter) :
  Permutation (insert_by_count x l) (x :: l).
Proof.
  induction l as [|y l IH]; [reflexivity|].
  cbn [insert_by_count]. destruct (snd y <=? snd x); [reflexivity|].
  rewrite IH. apply perm_swap.
Qed.

Lemma insert_by_count_sorted (x : str * nat) (l : counter) :
  Sorted (fun a b => snd b <= snd a) l ->
  Sorted (fun a b => snd b <= snd a) (insert_by_count x l).
Proof.
  induction 1 as [|y l Hl IH Hy]; [repeat constructor|].
  cbn [insert_by_count]. destruct (snd y <=? snd x) eqn:E.
  - apply Nat.leb_le in E. repeat constructor; assumption.
  - apply Nat.leb_gt in E. constructor; [exact IH|].
    destruct l as [|z l]; cbn [insert_by_count].
    + constructor. lia.
    + destruct (snd z <=? snd x); constructor; [lia|].
      now inversion Hy.
Qed.

(** X15. The summary lists the table of counts in a new order and changes
    nothing else: it is a rearrangement of the items of the table, the
    larger counts first. *)
Theorem summary_sorted_by_count (d : counter) :
  Permutation (sorted_by_count d) d
  /\ Sorted (fun a b => snd b <= snd a) (sorted_by_count d).
Proof.
  unfold sorted_by_count. induction d as [|x d [IHp IHs]].
  - split; [reflexivity | constructor].
  - cbn [fold_right]. split.
    + rewrite insert_by_count_perm. now constructor.
    + now apply insert_by_count_sorted.
Qed.

(** ** [get_all_cell_values] *)

Lemma fold_append_flat_map {A B : Type} (f : A -> list B) (l : list A)
      (acc : list B) :
  fold_left (fun out x => out ++ f x) l acc = acc ++ flat_map f l.
Proof.
  revert acc. induction l as [|x l IH]; intros acc; simpl.
  - now rewrite app_nil_r.
  - now rewrite IH, app_assoc.
Qed.

Lemma cell_values_step_entries (row_idx : N) (results : list (N * str * str))
      (c : nat * cell_value) :
  cell_values_step row_idx results c = results ++ cell_entries row_idx c.
Proof.
  unfold cell_values_step, cell_entries, surviving_texts, cell_texts.
  cbv zeta.
  destruct (snd c) as [|s|b r];
    cbn [value_is_none value_str flat_map app filter map];
    [now rewrite app_nil_r | |].
  - unfold survives.
    destruct (startswith (strip s) [EQUALS]),
             (str_eqb (lower (strip s)) MAIN_MARKER),
             (is_empty (strip s)); cbn [negb andb map];
      now rewrite ?app_nil_r.
  - unfold survives.
    destruct (startswith (strip r) [EQUALS]),
             (str_eqb (lower (strip r)) MAIN_MARKER),
             (is_empty (strip r)); cbn [negb andb map];
      now rewrite ?app_nil_r.
Qed.

Lemma fold_left_pointwise {A B : Type} (f g : A -> B -> A) (l : list B)
      (a : A) :
  (forall a x, f a x = g a x) -> fold_left f l a = fold_left g l a.
Proof.
  intros H. revert a. induction l as [|x l IH]; intros a; [reflexivity|].
  simpl. now rewrite H, IH.
Qed.

Lemma get_all_cell_values_entries (ws : worksheet) :
  get_all_cell_values ws
  = flat_map (fun r => flat_map (cell_entries (fst r)) (enumerate_cells (snd r)))
             (iter_rows ws).
Proof.
  unfold get_all_cell_values.
  rewrite (fold_left_pointwise _
             (fun results r =>
                results ++ flat_map (cell_entries (fst r))
                                    (enumerate_cells (snd r)))).
  - now rewrite fold_append_flat_map.
  - intros results r.
    rewrite (fold_left_pointwise _ (fun out c => out ++ cell_entries (fst r) c)).
    + now rewrite fold_append_flat_map.
    + intros out c. apply cell_values_step_entries.
Qed.

Lemma map_snd_enumerate (row : list cell_value) (a : nat) :
  map snd (combine (seq a (length row)) row) = row.
Proof.
  revert a. induction row as [|cell row IH]; intros a; [reflexivity|].
  simpl. now rewrite IH.
Qed.

Lemma surviving_texts_flat_map (cells : list (nat * cell_value)) :
  flat_map (fun c => surviving_texts [snd c]) cells
  = surviving_texts (map snd cells).
Proof.
  induction cells as [|c cells IH]; [reflexivity|].
  cbn [flat_map map]. rewrite IH.
  symmetry. apply surviving_texts_cons.
Qed.

(** X16. [get_all_cell_values] and the flattener of [extract_qa_from_sheet]
    keep the same cells: the values of the first, in their order, are the
    row texts of the second, row after row. *)
Theorem cell_values_are_row_texts (ws : worksheet) :
  map snd (get_all_cell_values ws) = flat_map collect_row_texts ws.
Proof.
  rewrite get_all_cell_values_entries. unfold iter_rows.
  generalize 1 at 1. induction ws as [|row ws IH]; intros a; [reflexivity|].
  cbn [length seq map combine flat_map fst snd].
  rewrite map_app, IH. f_equal.
  rewrite collect_row_texts_survivors.
  rewrite <- (map_snd_enumerate row 1) at 2.
  rewrite <- surviving_texts_flat_map. unfold enumerate_cells.
  induction (combine (seq 1 (length row)) row) as [|c cells IHc];
    [reflexivity|].
  cbn [flat_map]. rewrite map_app, IHc. f_equal.
  unfold cell_entries. rewrite map_map. apply map_id.
Qed.

(** X17. Every entry of [get_all_cell_values] has a row number of the
    sheet, the letter of a column of that row, and a value that is trimmed
    and not empty, is no formula reference and is not the "main" marker. *)
Theorem cell_values_entries_kept (ws : worksheet) :
  Forall (fun e =>
            (1 <= fst (fst e) <= N.of_nat (length ws))%N
            /\ (exists col, 1 <= col /\ snd (fst e) = column_letter col)
            /\ snd e <> [] /\ strip (snd e) = snd e
            /\ startswith (snd e) [EQUALS] = false
            /\ str_eqb (lower (snd e)) MAIN_MARKER = false)
         (get_all_cell_values ws).
Proof.
  rewrite get_all_cell_values_entries. apply Forall_forall. intros e He.
  apply in_flat_map in He. destruct He as [r [Hr He]].
  apply in_flat_map in He. destruct He as [c [Hc He]].
  unfold cell_entries in He. apply in_map_iff in He.
  destruct He as [text [<- Ht]]. cbn [fst snd].
  split; [now apply iter_rows_numbers|].
  split.
  { exists (fst c). split; [|reflexivity].
    destruct c as [col cell]. unfold enumerate_cells in Hc.
    apply in_combine_l, in_seq in Hc. simpl. lia. }
  pose proof (surviving_texts_trimmed [snd c]) as Htr.
  rewrite Forall_forall in Htr. specialize (Htr text Ht).
  destruct (trimmed_text_fixed text Htr) as [Hfix _].
  split; [exact (proj1 Htr)|]. split; [exact Hfix|].
  unfold surviving_texts in Ht. apply filter_In in Ht.
  destruct Ht as [_ Hs]. unfold survives in Hs.
  apply andb_true_iff in Hs. destruct Hs as [Hs Hm].
  apply andb_true_iff in Hs. destruct Hs as [_ Hf].
  split; now apply negb_true_iff.
Qed.

(** ** The sheet as a whole *)

Lemma row_unit_text (r : N * list cell_value) :
  map snd (row_unit r) = row_text (snd r).
Proof.
  unfold row_unit, row_text.
  destruct (surviving_texts (snd r)) as [|t [|t' ts]]; reflexivity.
Qed.

Lemma row_units_texts (rows : list (list cell_value)) (numbers : list N) :
  length numbers = length rows ->
  map snd (flat_map row_unit (combine numbers rows)) = flat_map row_text rows.
Proof.
  revert numbers. induction rows as [|row rows IH]; intros [|k numbers] H;
    try discriminate; [reflexivity|].
  cbn [combine flat_map]. rewrite map_app, row_unit_text.
  rewrite IH; [reflexivity | now injection H].
Qed.

(** X18. [extract_qa_from_sheet] is the segmenter run on the texts of the
    rows, from top to bottom, that keep a cell, without the first of these
    texts when it is, trimmed, the trimmed product name: the dict of the
    rows, its sorting and the row numbers add nothing to that. *)
Theorem sheet_is_segmented_row_texts (ws : worksheet) (sheet_name : str) :
  let product_name := infer_product_name ws sheet_name in
  let texts := flat_map row_text ws in
  extract_qa_from_sheet ws sheet_name
  = segment product_name sheet_name
      (match texts with
       | [] => []
       | text :: rest =>
           if str_eqb (strip text) (strip product_name) then rest else texts
       end).
Proof.
  intros product_name texts. rewrite extract_qa_from_sheet_units. cbv zeta.
  fold product_name. f_equal.
  assert (Htexts : map snd (flat_map row_unit (iter_rows ws)) = texts).
  { unfold iter_rows. apply row_units_texts.
    now rewrite length_map, length_seq. }
  destruct (flat_map row_unit (iter_rows ws)) as [|[k text] rest].
  - simpl in Htexts. now rewrite <- Htexts.
  - cbn [map snd] in Htexts. rewrite <- Htexts.
    destruct (str_eqb (strip text) (strip product_name)); reflexivity.
Qed.

(** X19. When every cell of the first row has a true value exactly when its
    trimmed text is not empty, the product name is the first text of that
    row that is not empty, no formula reference and not the "main" marker,
    and the name of the sheet when the row has no such text. *)
Theorem product_name_on_regular_first_row (ws : worksheet) (sheet_name : str) :
  Forall regular_cell (hd [] ws) ->
  infer_product_name ws sheet_name
  = match find survives (cell_texts (hd [] ws)) with
    | Some text => text
    | None => sheet_name
    end.
Proof.
  intros H. rewrite infer_product_name_first_row.
  now apply scan_title_cells_regular.
Qed.

(** ** The question heuristic and the case of letters *)

Lemma isspace_range (c : char) :
  isspace c = true -> (c <= 32 \/ 133 <= c)%N.
Proof.
  unfold isspace.
  rewrite !orb_true_iff, !andb_true_iff, !N.leb_le, !N.eqb_eq. lia.
Qed.

Lemma ascii_lower_cases (c : char) :
  ascii_lower c = c \/ ((65 <= c <= 90)%N /\ ascii_lower c = (c + 32)%N).
Proof.
  unfold ascii_lower.
  destruct ((65 <=? c) && (c <=? 90))%N eqn:E; [right | now left].
  apply andb_true_iff in E. rewrite !N.leb_le in E. now split.
Qed.

Lemma isspace_ascii_lower (c : char) : isspace (ascii_lower c) = isspace c.
Proof.
  destruct (ascii_lower_cases c) as [->|[Hc ->]]; [reflexivity|].
  destruct (isspace (c + 32)%N) eqn:E1.
  - apply isspace_range in E1. lia.
  - destruct (isspace c) eqn:E2; [|reflexivity].
    apply isspace_range in E2. lia.
Qed.

Lemma eqb_ascii_lower (c d : char) :
  (d < 65 \/ 122 < d)%N -> (ascii_lower c =? d)%N = (c =? d)%N.
Proof.
  intros Hd. destruct (ascii_lower_cases c) as [->|[Hc ->]]; [reflexivity|].
  rewrite (proj2 (N.eqb_neq _ _)), (proj2 (N.eqb_neq _ _)); [reflexivity | |];
    lia.
Qed.

Lemma ascii_lower_idempotent (c : char) :
  ascii_lower (ascii_lower c) = ascii_lower c.
Proof.
  destruct (ascii_lower_cases c) as [E|[Hc ->]]; [now rewrite !E|].
  unfold ascii_lower.
  replace ((65 <=? c + 32) && (c + 32 <=? 90))%N with false; [reflexivity|].
  symmetry. apply andb_false_iff. right. apply N.leb_gt. lia.
Qed.

Lemma is_ascii_lower (c : char) : is_ascii (ascii_lower c) = is_ascii c.
Proof.
  destruct (ascii_lower_cases c) as [->|[Hc ->]]; [reflexivity|].
  unfold is_ascii.
  rewrite (proj2 (N.ltb_lt _ _)), (proj2 (N.ltb_lt _ _)); [reflexivity | |];
    lia.
Qed.

Lemma drop_while_map (p : char -> bool) (f : char -> char) (s : str) :
  (forall c, p (f c) = p c) ->
  drop_while p (map f s) = map f (drop_while p s).
Proof.
  intros H. induction s as [|c s IH]; [reflexivity|].
  simpl. rewrite H. destruct (p c); [exact IH | reflexivity].
Qed.

Lemma strip_map_lower (s : str) :
  strip (map ascii_lower s) = map ascii_lower (strip s).
Proof.
  unfold strip, rstrip, lstrip.
  rewrite (drop_while_map _ _ _ isspace_ascii_lower), <- map_rev.
  rewrite (drop_while_map _ _ _ isspace_ascii_lower).
  now rewrite map_rev.
Qed.

Lemma startswith_map_qmark (t : str) :
  startswith (map ascii_lower t) [QMARK] = startswith t [QMARK].
Proof.
  destruct t as [|c t]; [reflexivity|]. simpl.
  rewrite eqb_ascii_lower; [reflexivity|]. unfold QMARK. lia.
Qed.

Lemma contains_map_qmark (t : str) :
  contains (map ascii_lower t) QMARK = contains t QMARK.
Proof.
  unfold contains. induction t as [|c t IH]; [reflexivity|].
  simpl. rewrite IH, eqb_ascii_lower; [reflexivity|]. unfold QMARK. lia.
Qed.

Lemma forallb_ascii_strip (s : str) :
  forallb is_ascii s = true -> forallb is_ascii (strip s) = true.
Proof.
  rewrite !forallb_forall. intros H c Hc. apply H.
  rewrite (strip_decompose s). apply in_or_app. right.
  apply in_or_app. now left.
Qed.

Lemma lower_map_lower (t : str) :
  forallb is_ascii t = true -> lower (map ascii_lower t) = lower t.
Proof.
  intros H. unfold lower.
  assert (H' : forallb is_ascii (map ascii_lower t) = true).
  { rewrite forallb_forall in *. intros c Hc. apply in_map_iff in Hc.
    destruct Hc as [d [<- Hd]]. rewrite is_ascii_lower. now apply H. }
  rewrite H, H', map_map. apply map_ext. apply ascii_lower_idempotent.
Qed.

(** X20. On a text of ASCII characters the heuristic does not depend on the
    case of the letters: the text and its lowercase form are questions
    together. *)
Theorem is_question_ignores_ascii_case (text : str) :
  forallb is_ascii text = true ->
  is_question (map ascii_lower text) = is_question text.
Proof.
  intros Hascii. unfold is_question. cbv zeta.
  rewrite strip_map_lower.
  pose proof (forallb_ascii_strip text Hascii) as Ht.
  set (t := strip text) in *.
  rewrite (lower_map_lower t Ht).
  assert (He : is_empty (map ascii_lower t) = is_empty t)
    by (destruct t; reflexivity).
  assert (Hend : endswith (map ascii_lower t) [QMARK] = endswith t [QMARK]).
  { unfold endswith. rewrite <- map_rev. apply startswith_map_qmark. }
  assert (Hin : contains (firstn 80 (map ascii_lower t)) QMARK
                = contains (firstn 80 t) QMARK).
  { rewrite firstn_map. apply contains_map_qmark. }
  now rewrite He, Hend, Hin.
Qed.

(** ** The fields of the pairs *)

Lemma has_infix_app (pat a b : str) :
  has_infix pat (a ++ b) ->
  has_infix pat a \/ has_infix pat b
  \/ exists p1 p2 pre post,
       p1 <> [] /\ p2 <> [] /\ pat = p1 ++ p2
       /\ a = pre ++ p1 /\ b = p2 ++ post.
Proof.
  intros (pre & post & H). apply app_eq_app in H.
  destruct H as [l [[Ha Hb]|[Hpre Hb]]].
  - symmetry in Hb. apply app_eq_app in Hb.
    destruct Hb as [l' [[Hl Hpost]|[Hpat Hb]]].
    + left. exists pre, l'. now rewrite Ha, Hl.
    + destruct l as [|c l].
      * right. left. exists [], post. simpl in Hpat. now subst.
      * destruct l' as [|c' l'].
        { left. exists pre, []. rewrite app_nil_r in Hpat.
          now rewrite Ha, Hpat, app_nil_r. }
        right. right. exists (c :: l), (c' :: l'), pre, post.
        repeat split; try discriminate; assumption.
  - right. left. exists l, post. exact Hb.
Qed.

Lemma no_infix_join (pat a b : str) :
  Forall (fun c => isspace c = true) pat ->
  starts_outside isspace (rev a) ->
  ~ has_infix pat a -> ~ has_infix pat b -> ~ has_infix pat (a ++ b).
Proof.
  intros Hpat Ha Hna Hnb H. apply has_infix_app in H.
  destruct H as [H|[H|(p1 & p2 & pre & post & H1 & _ & Hp & Hpre & _)]];
    [now apply Hna | now apply Hnb |].
  subst a pat. apply Forall_app in Hpat. destruct Hpat as [Hp1 _].
  apply Forall_rev in Hp1. rewrite rev_app_distr in Ha.
  destruct (rev p1) as [|c t] eqn:E.
  - apply (f_equal (@rev char)) in E. rewrite rev_involutive in E.
    now apply H1.
  - simpl in Ha. inversion Hp1; subst. congruence.
Qed.

Lemma normal_nonempty_join (a b : str) :
  a <> [] -> b <> [] -> normal a -> normal b -> normal (a ++ NL :: b).
Proof.
  intros Hane Hbne (Ha1 & Ha2 & Hap & Has & Han) (Hb1 & Hb2 & Hbp & Hbs & Hbn).
  repeat split.
  - now apply starts_outside_app.
  - change (a ++ NL :: b) with (a ++ [NL] ++ b).
    rewrite !rev_app_distr, <- app_assoc. apply starts_outside_app; [|exact Hb2].
    intros E. apply (f_equal (@rev char)) in E.
    rewrite rev_involutive in E. exact (Hbne E).
  - apply Forall_app. split; [exact Hap|].
    constructor; [apply plain_space_NL | exact Hbp].
  - apply no_infix_join; [repeat constructor | exact Ha2 | exact Has |].
    intros H. apply has_infix_cons in H.
    destruct H as [[post H]|H]; [discriminate H | now apply Hbs].
  - apply no_infix_join; [repeat constructor | exact Ha2 | exact Han |].
    intros H. apply has_infix_cons in H.
    destruct H as [[post H]|H]; [|now apply Hbn].
    injection H as H. rewrite H in Hb1. discriminate Hb1.
Qed.

Lemma join_nonempty (sep : str) (p : str) (parts : list str) :
  p <> [] -> join sep (p :: parts) <> [].
Proof.
  intros Hp. destruct parts as [|p' parts]; [exact Hp|].
  change (join sep (p :: p' :: parts))
    with (p ++ sep ++ join sep (p' :: parts)).
  destruct p; [congruence | discriminate].
Qed.

Lemma normal_join_lines (parts : list str) :
  Forall (fun p => p <> [] /\ normal p) parts -> normal (join [NL] parts).
Proof.
  induction 1 as [|p parts [Hp Hn] Hall IH].
  - repeat split; try constructor; intros [[|? ?] [? H]]; discriminate H.
  - destruct parts as [|p' parts]; [exact Hn|].
    change (join [NL] (p :: p' :: parts))
      with (p ++ NL :: join [NL] (p' :: parts)).
    apply normal_nonempty_join; try assumption.
    apply join_nonempty. inversion Hall as [|? ? [H _] _]; subst. exact H.
Qed.

(** X21. Lines that are not blank, each normalized and then joined by
    single newlines, are a normalized text: the normalization of the
    joined answer changes nothing, and the answer of a pair is its
    normalized lines, one per line. *)
Theorem joined_answer_already_normalized (answers : list str) :
  Forall (fun text => clean_text text <> []) answers ->
  clean_text (join [NL] (map clean_text answers))
  = join [NL] (map clean_text answers).
Proof.
  intros H. apply normal_fixed, normal_join_lines.
  apply Forall_map. eapply Forall_impl; [|exact H].
  intros text Htext. split; [exact Htext | apply clean_text_normal].
Qed.

Lemma save_pending_questions (product_name sheet_name : str) (st : seg_state) :
  questions_invariant st ->
  Forall (fun qa => is_question (question qa) = true)
         (save_pending product_name sheet_name st).
Proof.
  intros [Hpairs Hq]. unfold save_pending.
  destruct (pending (current_question st)
            && negb (is_nil (current_answer_parts st))) eqn:E; [|exact Hpairs].
  destruct (negb (is_empty _)); [|exact Hpairs].
  apply Forall_app. split; [exact Hpairs|]. constructor; [|constructor].
  apply andb_true_iff in E. destruct E as [E _].
  destruct (current_question st) as [q|]; [|discriminate E].
  destruct (Hq q eq_refl) as [Hquestion Hfix].
  cbn [question]. now rewrite Hfix.
Qed.

Lemma seg_run_questions (product_name sheet_name : str) (texts : list str)
      (st : seg_state) :
  questions_invariant st ->
  questions_invariant (fold_left (seg_step product_name sheet_name) texts st).
Proof.
  revert st. induction texts as [|t texts IH]; intros st Hinv; [exact Hinv|].
  cbn [fold_left]. apply IH. unfold seg_step.
  destruct (is_empty (clean_text t)) eqn:E; [exact Hinv|].
  destruct (is_question (clean_text t)) eqn:Eq.
  - split; cbn [qa_pairs current_question].
    + now apply save_pending_questions.
    + intros q [= <-]. split; [exact Eq | apply clean_text_idempotent].
  - destruct (pending (current_question st)); [|exact Hinv].
    destruct Hinv as [Hp Hq]. split; assumption.
Qed.

(** X22. The question of every pair is a text that [is_question] takes for
    a question. *)
Theorem pair_questions_are_questions
        (product_name sheet_name : str) (texts : list str) :
  Forall (fun qa => is_question (question qa) = true)
         (segment product_name sheet_name texts).
Proof.
  apply save_pending_questions, seg_run_questions.
  split; [constructor | discriminate].
Qed.

End Pipeline.

(** * Closed instances *)

(** Blanks, tabs and empty lines are normalized away. *)
Example clean_text_example :
  clean_text (py "  a " ++ [TAB; TAB] ++ py " b" ++ [NL; NL; NL; NL]
              ++ py "c" ++ [NL])
  = py "a b" ++ [NL; NL] ++ py "c".
Proof. vm_compute. reflexivity. Qed.

(** C1, as stated, fails on the FAQ merge: an entry with an empty question
    is appended like any other, and its pair has an empty question. *)
Lemma faq_pair_with_empty_question :
  exists qa,
    In qa (collect_all_qa no_unicode_lower [] faq_with_empty_question)
    /\ clean_text (question qa) = [].
Proof.
  exists (mkQA [] (py "Use the mobile app.")
               (py "Mobile App " ++ [EN_DASH] ++ py " General") FAQ_SHEET).
  split; vm_compute; [left; reflexivity | reflexivity].
Qed.

(** The theorem on the pairs of the run, at the workbook of one "Savings"
    sheet and its one pair. *)
Lemma all_qa_pairs_fields_witness :
  (forall sh, In sh savings_workbook -> fst sh <> [])
  /\ In savings_pair (collect_all_qa no_unicode_lower savings_workbook None)
  /\ (sheet_pair no_unicode_lower savings_workbook savings_pair
      \/ faq_merge_pair None savings_pair).
Proof.
  assert (H1 : forall sh, In sh savings_workbook -> fst sh <> []).
  { intros sh [<-|[]]. discriminate. }
  assert (H2 : In savings_pair
                  (collect_all_qa no_unicode_lower savings_workbook None)).
  { vm_compute. left. reflexivity. }
  split; [exact H1|]. split; [exact H2|].
  exact (all_qa_pairs_fields no_unicode_lower savings_workbook None
                             savings_pair H1 H2).
Defined.

(** A question at the end of the rows, after a question with its answer. *)
Lemma dangling_questions_and_orphan_answers_witness :
  classify no_unicode_lower (py "What is X?") = Question
  /\ classify no_unicode_lower (py "How do I apply?") = Question
  /\ Forall (fun text => classify no_unicode_lower text = Answer)
            [py "Note: rates subject to change."]
  /\ segment no_unicode_lower (py "P") (py "S")
             ([py "What is the rate?"; py "5% APR."] ++ [py "What is X?"])
     = segment no_unicode_lower (py "P") (py "S")
               [py "What is the rate?"; py "5% APR."].
Proof.
  assert (H1 : classify no_unicode_lower (py "What is X?") = Question)
    by (vm_compute; reflexivity).
  assert (H2 : classify no_unicode_lower (py "How do I apply?") = Question)
    by (vm_compute; reflexivity).
  assert (H3 : Forall (fun text => classify no_unicode_lower text = Answer)
                      [py "Note: rates subject to change."])
    by (constructor; [vm_compute; reflexivity | constructor]).
  split; [exact H1|]. split; [exact H2|]. split; [exact H3|].
  exact (proj1 (dangling_questions_and_orphan_answers_dropped
                  no_unicode_lower (py "P") (py "S")
                  [py "What is the rate?"; py "5% APR."]
                  [py "Note: rates subject to change."] []
                  (py "What is X?") (py "How do I apply?") H1 H2 H3)).
Defined.

(** The sheet "Main" after the "Savings" sheet. *)
Lemma skipped_sheet_witness :
  in_set (py "Main") SKIP_SHEETS = true
  /\ collect_all_qa no_unicode_lower
                    (savings_workbook
                     ++ (py "Main", [[VStr (py "What is X?")];
                                     [VStr (py "An index page.")]]) :: [])
                    None
     = collect_all_qa no_unicode_lower (savings_workbook ++ []) None.
Proof.
  assert (H : in_set (py "Main") SKIP_SHEETS = true)
    by (vm_compute; reflexivity).
  split; [exact H|].
  exact (proj2 (proj2 (proj2 (proj2
           (skipped_sheet_contributes_nothing
              no_unicode_lower savings_workbook [] (py "Main")
              [[VStr (py "What is X?")]; [VStr (py "An index page.")]] []
              None (mkMain [] []) H))))).
Defined.

(** A row of blanks between a question and its answer. *)
Lemma blank_rows_ignored_witness :
  classify no_unicode_lower (py "   ") = Blank
  /\ segment no_unicode_lower (py "P") (py "S")
             ([py "What is the rate?"] ++ py "   " :: [py "5% APR."])
     = segment no_unicode_lower (py "P") (py "S")
               ([py "What is the rate?"] ++ [py "5% APR."]).
Proof.
  assert (H : classify no_unicode_lower (py "   ") = Blank)
    by (vm_compute; reflexivity).
  split; [exact H|].
  exact (blank_rows_ignored no_unicode_lower (py "P") (py "S")
           [py "What is the rate?"] [py "5% APR."] (py "   ") H).
Defined.

(** A question with two answer lines, ahead of a second question. *)
Lemma segment_question_block_witness :
  classify no_unicode_lower (py "What is the rate?") = Question
  /\ [py "5% APR."; py "Subject to change."] <> []
  /\ Forall (fun text => classify no_unicode_lower text = Answer)
            [py "5% APR."; py "Subject to change."]
  /\ starts_with_question no_unicode_lower [py "How do I apply?"]
  /\ segment no_unicode_lower (py "P") (py "S")
             (py "What is the rate?"
              :: [py "5% APR."; py "Subject to change."]
                 ++ [py "How do I apply?"])
     = mkQA (clean_text (py "What is the rate?"))
            (clean_text
               (join [NL]
                     (map clean_text [py "5% APR."; py "Subject to change."])))
            (py "P") (py "S")
       :: segment no_unicode_lower (py "P") (py "S") [py "How do I apply?"].
Proof.
  assert (H1 : classify no_unicode_lower (py "What is the rate?") = Question)
    by (vm_compute; reflexivity).
  assert (H2 : [py "5% APR."; py "Subject to change."] <> [])
    by discriminate.
  assert (H3 : Forall (fun text => classify no_unicode_lower text = Answer)
                      [py "5% APR."; py "Subject to change."])
    by (repeat (constructor; [vm_compute; reflexivity|]); constructor).
  assert (H4 : starts_with_question no_unicode_lower [py "How do I apply?"])
    by (vm_compute; reflexivity).
  split; [exact H1|]. split; [exact H2|]. split; [exact H3|].
  split; [exact H4|].
  exact (segment_question_block no_unicode_lower (py "P") (py "S")
           (py "What is the rate?") [py "5% APR."; py "Subject to change."]
           [py "How do I apply?"] H1 H2 H3 H4).
Defined.

(** A first row with an empty cell, the marker, a formula reference and the
    title between blanks. *)
Lemma product_name_on_regular_first_row_witness :
  Forall regular_cell
         (hd [] [[VNone; VStr (py "Main"); VStr (py "=A1");
                  VStr (py " Savings Account ")]])
  /\ infer_product_name no_unicode_lower
       [[VNone; VStr (py "Main"); VStr (py "=A1");
         VStr (py " Savings Account ")]] (py "Savings")
     = match find (survives no_unicode_lower)
                  (cell_texts (hd [] [[VNone; VStr (py "Main"); VStr (py "=A1");
                                       VStr (py " Savings Account ")]])) with
       | Some text => text
       | None => py "Savings"
       end.
Proof.
  assert (H : Forall regular_cell
                     (hd [] [[VNone; VStr (py "Main"); VStr (py "=A1");
                              VStr (py " Savings Account ")]]))
    by (repeat (constructor; [vm_compute; reflexivity || exact I|]);
        constructor).
  split; [exact H|].
  exact (product_name_on_regular_first_row no_unicode_lower _ (py "Savings") H).
Defined.

(** A question in capital letters. *)
Lemma is_question_ignores_ascii_case_witness :
  forallb is_ascii (py "HOW DO I APPLY") = true
  /\ is_question no_unicode_lower (map ascii_lower (py "HOW DO I APPLY"))
     = is_question no_unicode_lower (py "HOW DO I APPLY").
Proof.
  assert (H : forallb is_ascii (py "HOW DO I APPLY") = true)
    by (vm_compute; reflexivity).
  split; [exact H|].
  exact (is_question_ignores_ascii_case no_unicode_lower
           (py "HOW DO I APPLY") H).
Defined.

(** Two answer lines with blanks to normalize. *)
Lemma joined_answer_already_normalized_witness :
  Forall (fun text => clean_text text <> [])
         [py " 5%  APR. "; py "Subject to change."]
  /\ clean_text
       (join [NL] (map clean_text [py " 5%  APR. "; py "Subject to change."]))
     = join [NL] (map clean_text [py " 5%  APR. "; py "Subject to change."]).
Proof.
  assert (H : Forall (fun text => clean_text text <> [])
                     [py " 5%  APR. "; py "Subject to change."])
    by (repeat (constructor; [vm_compute; discriminate|]); constructor).
  split; [exact H|].
  exact (joined_answer_already_normalized
           [py " 5%  APR. "; py "Subject to change."] H).
Defined.
